(** * Tengo: type-check builtins, and the host-embedding pipeline

    The first part embeds [objects/builtin_type_checks.go].  The second part
    models the compiler, the symbol table, the module resolver, the virtual
    machine and the [script] facade that the tests in [script/script_test.go]
    drive. *)

From Stdlib Require Import ZArith Floats.
From stdpp Require Import base decidable option list strings gmap.

Local Open Scope Z_scope.

(** ** Part I.  package objects *)

(** The dynamic type carried by an [Object] interface value.  The
    runtime types are pointer types ([*String], [*Int], ...); a host
    program may add its own implementations of the interface (the
    "User Types" section of the interoperability notes). *)
Inductive ObjectType : Type :=
  | TString | TInt | TFloat | TBool | TChar | TBytes
  | TArray | TImmutableArray | TMap | TImmutableMap
  | TTime | TError | TUndefined
  | TCompiledFunction | TClosure | TBuiltinFunction | TUserFunction
  | TUserType (name : string).

#[global] Instance ObjectType_eq_dec : EqDecision ObjectType.
Proof. solve_decision. Defined.

(** An interface value of type [Object]: either the nil interface, or a
    dynamic type together with the pointer it holds.  Address [0] is the
    nil pointer, so [Iface TString 0] is a typed nil: a nil pointer to a
    String held in a non-nil interface. *)
Inductive Object : Type :=
  | NilObject
  | Iface (dyn : ObjectType) (ptr : N).

#[global] Instance Object_eq_dec : EqDecision Object.
Proof. solve_decision. Defined.

(** Go's [==] on two interface values: identical dynamic types and equal
    dynamic values.  Every dynamic type compared here is a pointer type,
    so the comparison is pointer identity and cannot panic. *)
Definition iface_eq (a b : Object) : bool := bool_decide (a = b).

(** The comma-ok type assertion of [x] to a pointer type: the pointer and
    whether the dynamic type of [x] is that type. *)
Definition typeAssert (t : ObjectType) (x : Object) : N * bool :=
  match x with
  | Iface dyn p => if decide (dyn = t) then (p, true) else (0%N, false)
  | NilObject => (0%N, false)
  end.

(** Go's [error] interface, restricted to nil and the error variables of
    package objects that this development refers to. *)
Inductive error : Type :=
  | nil_error
  | ErrWrongNumArguments
  | ErrInvalidArgumentType.

#[global] Instance error_eq_dec : EqDecision error.
Proof. solve_decision. Defined.

(** What a call of a Go function of type [func(args ...Object) (Object, error)]
    does: it returns its pair of results, or it panics (a run-time fault
    such as an index out of range). *)
Inductive outcome : Type :=
  | Return (ret : Object) (err : error)
  | Panic (msg : string).

(** [args[i]] on a slice: a run-time panic when [i] is out of range. *)
Definition index (args : list Object) (i : nat) (k : Object → outcome) : outcome :=
  match args !! i with
  | Some a => k a
  | None => Panic "index out of range"
  end.

(** Modelled from the spec: the canonical objects [TrueValue], [FalseValue]
    and [UndefinedValue] are declared in objects/objects.go, which is not
    among the sources; they are three package-level variables, each holding
    a pointer to its own allocation.  The addresses are arbitrary, non-nil
    and pairwise distinct. *)
Definition TrueValue : Object := Iface TBool 1.
Definition FalseValue : Object := Iface TBool 2.
Definition UndefinedValue : Object := Iface TUndefined 3.

Definition builtinIsString (args : list Object) : outcome :=
  if negb (length args =? 1)%nat then Return NilObject ErrWrongNumArguments
  else index args 0 (λ a,
    if (typeAssert TString a).2 then Return TrueValue nil_error
    else Return FalseValue nil_error).

Definition builtinIsInt (args : list Object) : outcome :=
  if negb (length args =? 1)%nat then Return NilObject ErrWrongNumArguments
  else index args 0 (λ a,
    if (typeAssert TInt a).2 then Return TrueValue nil_error
    else Return FalseValue nil_error).

Definition builtinIsFloat (args : list Object) : outcome :=
  if negb (length args =? 1)%nat then Return NilObject ErrWrongNumArguments
  else index args 0 (λ a,
    if (typeAssert TFloat a).2 then Return TrueValue nil_error
    else Return FalseValue nil_error).

Definition builtinIsBool (args : list Object) : outcome :=
  if negb (length args =? 1)%nat then Return NilObject ErrWrongNumArguments
  else index args 0 (λ a,
    if (typeAssert TBool a).2 then Return TrueValue nil_error
    else Return FalseValue nil_error).

Definition builtinIsChar (args : list Object) : outcome :=
  if negb (length args =? 1)%nat then Return NilObject ErrWrongNumArguments
  else index args 0 (λ a,
    if (typeAssert TChar a).2 then Return TrueValue nil_error
    else Return FalseValue nil_error).

Definition builtinIsBytes (args : list Object) : outcome :=
  if negb (length args =? 1)%nat then Return NilObject ErrWrongNumArguments
  else index args 0 (λ a,
    if (typeAssert TBytes a).2 then Return TrueValue nil_error
    else Return FalseValue nil_error).

Definition builtinIsArray (args : list Object) : outcome :=
  if negb (length args =? 1)%nat then Return NilObject ErrWrongNumArguments
  else index args 0 (λ a,
    if (typeAssert TArray a).2 then Return TrueValue nil_error
    else Return FalseValue nil_error).

Definition builtinIsImmutableArray (args : list Object) : outcome :=
  if negb (length args =? 1)%nat then Return NilObject ErrWrongNumArguments
  else index args 0 (λ a,
    if (typeAssert TImmutableArray a).2 then Return TrueValue nil_error
    else Return FalseValue nil_error).

Definition builtinIsMap (args : list Object) : outcome :=
  if negb (length args =? 1)%nat then Return NilObject ErrWrongNumArguments
  else index args 0 (λ a,
    if (typeAssert TMap a).2 then Return TrueValue nil_error
    else Return FalseValue nil_error).

Definition builtinIsImmutableMap (args : list Object) : outcome :=
  if negb (length args =? 1)%nat then Return NilObject ErrWrongNumArguments
  else index args 0 (λ a,
    if (typeAssert TImmutableMap a).2 then Return TrueValue nil_error
    else Return FalseValue nil_error).

Definition builtinIsTime (args : list Object) : outcome :=
  if negb (length args =? 1)%nat then Return NilObject ErrWrongNumArguments
  else index args 0 (λ a,
    if (typeAssert TTime a).2 then Return TrueValue nil_error
    else Return FalseValue nil_error).

Definition builtinIsError (args : list Object) : outcome :=
  if negb (length args =? 1)%nat then Return NilObject ErrWrongNumArguments
  else index args 0 (λ a,
    if (typeAssert TError a).2 then Return TrueValue nil_error
    else Return FalseValue nil_error).

Definition builtinIsUndefined (args : list Object) : outcome :=
  if negb (length args =? 1)%nat then Return NilObject ErrWrongNumArguments
  else index args 0 (λ a,
    if iface_eq a UndefinedValue then Return TrueValue nil_error
    else Return FalseValue nil_error).

(** The thirteen type-check builtins under their script-level names. *)
Inductive TypeCheck : Type :=
  | is_string | is_int | is_float | is_bool | is_char | is_bytes
  | is_array | is_immutable_array | is_map | is_immutable_map
  | is_time | is_error | is_undefined.

Definition typeCheckFn (c : TypeCheck) : list Object → outcome :=
  match c with
  | is_string => builtinIsString
  | is_int => builtinIsInt
  | is_float => builtinIsFloat
  | is_bool => builtinIsBool
  | is_char => builtinIsChar
  | is_bytes => builtinIsBytes
  | is_array => builtinIsArray
  | is_immutable_array => builtinIsImmutableArray
  | is_map => builtinIsMap
  | is_immutable_map => builtinIsImmutableMap
  | is_time => builtinIsTime
  | is_error => builtinIsError
  | is_undefined => builtinIsUndefined
  end.

(** The pointer type each variant-testing builtin asserts; [is_undefined]
    has none, it compares with the singleton. *)
Definition assertedType (c : TypeCheck) : option ObjectType :=
  match c with
  | is_string => Some TString
  | is_int => Some TInt
  | is_float => Some TFloat
  | is_bool => Some TBool
  | is_char => Some TChar
  | is_bytes => Some TBytes
  | is_array => Some TArray
  | is_immutable_array => Some TImmutableArray
  | is_map => Some TMap
  | is_immutable_map => Some TImmutableMap
  | is_time => Some TTime
  | is_error => Some TError
  | is_undefined => None
  end.

Definition dynType (x : Object) : option ObjectType :=
  match x with
  | NilObject => None
  | Iface dyn _ => Some dyn
  end.

(** ** Part II.  The object model, as the compiler and the machine see it *)

Definition Pos : Type := Z.

(** Operator tokens of binary and unary expressions. *)
Inductive Token : Type := TokAdd | TokSub | TokMul | TokQuo | TokRem.

#[global] Instance Token_eq_dec : EqDecision Token.
Proof. solve_decision. Defined.

Inductive UnaryToken : Type := TokPlus | TokMinus.

(** Modelled from the spec: the instructions of the machine of section
    4.6 (the opcode table of package compiler is not among the sources).
    Operands are the operands of the instruction stream: constant-pool
    indices, slot indices and counts. *)
Inductive Instr : Type :=
  | OpConstant (i : nat)
  | OpPop
  | OpTrue
  | OpFalse
  | OpNull
  | OpBinaryOp (op : Token)
  | OpMinus
  | OpGetGlobal (i : nat)
  | OpSetGlobal (i : nat)
  | OpGetLocal (i : nat)
  | OpSetLocal (i : nat)
  | OpGetFree (i : nat)
  | OpSetFree (i : nat)
  | OpGetLocalPtr (i : nat)
  | OpGetFreePtr (i : nat)
  | OpGetBuiltin (i : nat)
  | OpArray (n : nat)
  | OpImmutableMap (n : nat)
  | OpIndex
  | OpCall (n : nat)
  | OpReturn
  | OpReturnValue
  | OpClosure (i : nat) (nfree : nat).

(** Modelled from the spec: a function literal, flattened (section 4.3):
    instruction stream, number of local slots, parameter count and variadic
    flag.  [ModuleName] marks the entry function of an imported module. *)
Record CompiledFunction : Type := {
  Instructions : list Instr;
  NumLocals : nat;
  NumParameters : nat;
  VarArgs : bool;
  ModuleName : option string
}.

(** Modelled from the spec: the value universe of section 3 (the object
    declarations of package objects are not among the sources).  A closure
    holds the addresses of its captured cells; builtin and host functions
    are named entries of the tables the machine is given. *)
Inductive Value : Type :=
  | VUndefined
  | VBool (b : bool)
  | VInt (n : Z)
  | VFloat (f : float)
  | VString (s : string)
  | VChar (c : Z)
  | VBytes (bs : list Z)
  | VArray (xs : list Value)
  | VImmutableArray (xs : list Value)
  | VMap (m : gmap string Value)
  | VImmutableMap (m : gmap string Value)
  | VTime (t : Z)
  | VError (v : Value)
  | VFunction (fn : CompiledFunction)
  | VClosure (fn : CompiledFunction) (free : list nat)
  | VBuiltinFunction (name : string)
  | VUserFunction (name : string).

(** 64-bit signed wrap-around of Int arithmetic. *)
Definition wrap64 (z : Z) : Z := (z + 2 ^ 63) mod 2 ^ 64 - 2 ^ 63.

(** The variant of a value, as the type tag its object carries. *)
Definition typeOf (v : Value) : ObjectType :=
  match v with
  | VUndefined => TUndefined
  | VBool _ => TBool
  | VInt _ => TInt
  | VFloat _ => TFloat
  | VString _ => TString
  | VChar _ => TChar
  | VBytes _ => TBytes
  | VArray _ => TArray
  | VImmutableArray _ => TImmutableArray
  | VMap _ => TMap
  | VImmutableMap _ => TImmutableMap
  | VTime _ => TTime
  | VError _ => TError
  | VFunction _ => TCompiledFunction
  | VClosure _ _ => TClosure
  | VBuiltinFunction _ => TBuiltinFunction
  | VUserFunction _ => TUserFunction
  end.

(** ** The symbol table (section 4.2) *)

(** Modelled from the spec: symbols, scopes and the two operations
    [define] and [resolve] of section 4.2 (the symbol table of package
    compiler is not among the sources). *)
Inductive SymbolScope : Type := ScopeGlobal | ScopeLocal | ScopeFree | ScopeBuiltin.

#[global] Instance SymbolScope_eq_dec : EqDecision SymbolScope.
Proof. solve_decision. Defined.

Record Symbol : Type := {
  Name : string;
  Scope : SymbolScope;
  Index : nat
}.

(** One table per function scope, and one for the global scope. *)
Record SymbolTable : Type := {
  store : gmap string Symbol;
  numDefinition : nat;
  freeSymbols : list Symbol
}.

Definition NewSymbolTable : SymbolTable :=
  {| store := ∅; numDefinition := 0; freeSymbols := [] |}.

(** The scope stack: the enclosing function scopes, innermost first, on top
    of the global scope. *)
Record Scopes : Type := {
  inner : list SymbolTable;
  global : SymbolTable
}.

(** [define] in a function scope: the next free index; a second definition
    of the name rebinds it to a new index. *)
Definition defineLocal (name : string) (t : SymbolTable) : Symbol * SymbolTable :=
  let s := {| Name := name; Scope := ScopeLocal; Index := numDefinition t |} in
  (s, {| store := <[name := s]> (store t);
         numDefinition := S (numDefinition t);
         freeSymbols := freeSymbols t |}).

(** [define] in the global scope: a name keeps the index it has. *)
Definition defineGlobal (name : string) (t : SymbolTable) : Symbol * SymbolTable :=
  match store t !! name with
  | Some s => (s, t)
  | None =>
      let s := {| Name := name; Scope := ScopeGlobal; Index := numDefinition t |} in
      (s, {| store := <[name := s]> (store t);
             numDefinition := S (numDefinition t);
             freeSymbols := freeSymbols t |})
  end.

Definition define (name : string) (sc : Scopes) : Symbol * Scopes :=
  match inner sc with
  | [] =>
      let '(s, g) := defineGlobal name (global sc) in
      (s, {| inner := []; global := g |})
  | t :: outer =>
      let '(s, t') := defineLocal name t in
      (s, {| inner := t' :: outer; global := global sc |})
  end.

(** Registers [original], the symbol that [name] resolved to in the
    enclosing function, as the next captured variable of [t]. *)
Definition defineFree (name : string) (original : Symbol) (t : SymbolTable)
  : Symbol * SymbolTable :=
  let s := {| Name := name; Scope := ScopeFree;
              Index := length (freeSymbols t) |} in
  (s, {| store := <[name := s]> (store t);
         numDefinition := numDefinition t;
         freeSymbols := freeSymbols t ++ [original] |}).

(** [resolve] over the function scopes, innermost to outermost, then the
    global scope.  A hit in an enclosing function is promoted to a free
    variable of every function scope between the definition and the use. *)
Fixpoint resolveIn (name : string) (tables : list SymbolTable) (g : SymbolTable)
  : option (Symbol * list SymbolTable) :=
  match tables with
  | [] =>
      match store g !! name with
      | Some s => Some (s, [])
      | None => None
      end
  | t :: outer =>
      match store t !! name with
      | Some s => Some (s, t :: outer)
      | None =>
          match resolveIn name outer g with
          | None => None
          | Some (s, outer') =>
              match Scope s with
              | ScopeGlobal | ScopeBuiltin => Some (s, t :: outer')
              | ScopeLocal | ScopeFree =>
                  let '(fs, t') := defineFree name s t in Some (fs, t' :: outer')
              end
          end
      end
  end.

Definition resolve (name : string) (sc : Scopes) : option (Symbol * Scopes) :=
  match resolveIn name (inner sc) (global sc) with
  | Some (s, tables) => Some (s, {| inner := tables; global := global sc |})
  | None => None
  end.

(** ** The syntax tree handed over by the front end (section 6) *)

(** Modelled from the spec: the typed nodes of the AST contract that
    straight-line scripts are made of (package ast is not among the
    sources): literals, identifiers, binary and unary operations, array
    literals, index and selector, calls, function literals, imports;
    definition and assignment of a name, expression statements, returns.
    Identifiers, imports, function literals and assignments carry their
    source position. *)
Inductive AssignToken : Type := TokDefine | TokAssign.

Inductive Expr : Type :=
  | IntLit (v : Z)
  | FloatLit (v : float)
  | StringLit (v : string)
  | CharLit (v : Z)
  | BoolLit (v : bool)
  | UndefinedLit
  | Ident (pos : Pos) (name : string)
  | BinaryExpr (op : Token) (lhs rhs : Expr)
  | UnaryExpr (op : UnaryToken) (operand : Expr)
  | ArrayLit (elements : Exprs)
  | IndexExpr (operand index : Expr)
  | SelectorExpr (operand : Expr) (sel : string)
  | CallExpr (func : Expr) (args : Exprs)
  | FuncLit (pos : Pos) (params : list string) (varArgs : bool) (body : Stmts)
  | ImportExpr (pos : Pos) (moduleName : string)
with Exprs : Type :=
  | ENil
  | ECons (e : Expr) (es : Exprs)
with Stmt : Type :=
  | AssignStmt (pos : Pos) (tok : AssignToken) (lhs : string) (rhs : Expr)
  | ExprStmt (e : Expr)
  | ReturnStmt (result : Expr)
  | ReturnVoid
with Stmts : Type :=
  | SNil
  | SCons (s : Stmt) (ss : Stmts).

Scheme Expr_mut := Induction for Expr Sort Prop
  with Exprs_mut := Induction for Exprs Sort Prop
  with Stmt_mut := Induction for Stmt Sort Prop
  with Stmts_mut := Induction for Stmts Sort Prop.
Combined Scheme ast_mutind from Expr_mut, Exprs_mut, Stmt_mut, Stmts_mut.

Fixpoint exprs_of (l : list Expr) : Exprs :=
  match l with
  | [] => ENil
  | e :: l' => ECons e (exprs_of l')
  end.

Fixpoint stmts_of (l : list Stmt) : Stmts :=
  match l with
  | [] => SNil
  | s :: l' => SCons s (stmts_of l')
  end.

(** ** The compiler (sections 4.3 to 4.5) *)

(** Modelled from the spec: the compile-time errors of section 7 that
    these nodes can raise, each with the name and the source position it
    reports. *)
Inductive CompileError : Type :=
  | UndefinedIdentifier (name : string) (pos : Pos)
  | DisabledBuiltin (name : string) (pos : Pos)
  | DisabledModule (name : string) (pos : Pos)
  | ModuleNotFound (name : string) (pos : Pos)
  | CyclicImport (name : string) (pos : Pos)
  | DuplicateParameter (name : string) (pos : Pos).

(** A compilation yields its result, halts with a compile error, or
    exceeds the bound put on the nesting depth of imports (see
    [resolveModule]). *)
Inductive CResult (A : Type) : Type :=
  | COk (a : A)
  | CErr (e : CompileError)
  | CFuel.
Arguments COk {A} a.
Arguments CErr {A} e.
Arguments CFuel {A}.

(** Per-compilation state of a module: absent from the cache when
    unvisited, in progress while its source is being compiled, done with
    the constant-pool index of its entry function. *)
Inductive ModuleState : Type :=
  | InProgress
  | Done (entry : nat).

Record CState : Type := {
  scopes : Scopes;
  constants : list Value;
  modules : gmap string ModuleState
}.

Definition M (A : Type) : Type := CState → CResult (A * CState).

Definition cret {A} (a : A) : M A := λ st, COk (a, st).
Definition cfail {A} (e : CompileError) : M A := λ _, CErr e.
Definition cbind {A B} (m : M A) (k : A → M B) : M B :=
  λ st, match m st with
        | COk (a, st') => k a st'
        | CErr e => CErr e
        | CFuel => CFuel
        end.

Notation "x <~ m ;; k" := (cbind m (λ x, k))
  (at level 100, m at next level, right associativity).

(** Sandbox controls and the builtin registry, fixed for one compilation. *)
Record Config : Type := {
  builtinNames : list string;
  disabledBuiltins : gset string;
  disabledModules : gset string
}.

(** The module resolver as the compiler calls it: from the position and
    name of an import, the constant pool and the module cache, to the
    instructions of the import and the extended pool and cache. *)
Definition Importer : Type :=
  Pos → string → list Value → gmap string ModuleState →
  CResult (list Instr * list Value * gmap string ModuleState).

(** Literals that the constant pool stores once. *)
Definition sameLiteral (a b : Value) : bool :=
  match a, b with
  | VInt x, VInt y => bool_decide (x = y)
  | VString x, VString y => bool_decide (x = y)
  | VChar x, VChar y => bool_decide (x = y)
  | VFloat x, VFloat y => PrimFloat.Leibniz.eqb x y
  | _, _ => false
  end.

Fixpoint findConstant (v : Value) (pool : list Value) (i : nat) : option nat :=
  match pool with
  | [] => None
  | c :: pool' => if sameLiteral v c then Some i else findConstant v pool' (S i)
  end.

Definition addConstantTo (v : Value) (pool : list Value) : nat * list Value :=
  match findConstant v pool 0 with
  | Some i => (i, pool)
  | None => (length pool, pool ++ [v])
  end.

Definition addConstant (v : Value) : M nat :=
  λ st, let '(i, pool) := addConstantTo v (constants st) in
        COk (i, {| scopes := scopes st; constants := pool; modules := modules st |}).

Definition setScopes (sc : Scopes) (st : CState) : CState :=
  {| scopes := sc; constants := constants st; modules := modules st |}.

Fixpoint indexOf (name : string) (names : list string) (i : nat) : option nat :=
  match names with
  | [] => None
  | n :: names' => if decide (n = name) then Some i else indexOf name names' (S i)
  end.

Definition loadSymbol (s : Symbol) : Instr :=
  match Scope s with
  | ScopeGlobal => OpGetGlobal (Index s)
  | ScopeLocal => OpGetLocal (Index s)
  | ScopeFree => OpGetFree (Index s)
  | ScopeBuiltin => OpGetBuiltin (Index s)
  end.

(** The tables hold no builtin symbol, so the last case is never reached. *)
Definition storeSymbol (s : Symbol) : Instr :=
  match Scope s with
  | ScopeGlobal => OpSetGlobal (Index s)
  | ScopeLocal => OpSetLocal (Index s)
  | ScopeFree => OpSetFree (Index s)
  | ScopeBuiltin => OpPop
  end.

(** The cell of a captured variable, as the enclosing function reaches it. *)
Definition captureSymbol (s : Symbol) : Instr :=
  match Scope s with
  | ScopeFree => OpGetFreePtr (Index s)
  | _ => OpGetLocalPtr (Index s)
  end.

(** Name resolution of an identifier: user-defined symbols first; a
    builtin only when no user-defined symbol of that name is in scope and
    the name is not disabled. *)
Definition compileIdent (cfg : Config) (pos : Pos) (name : string) : M (list Instr) :=
  λ st,
    match resolve name (scopes st) with
    | Some (s, sc) => COk ([loadSymbol s], setScopes sc st)
    | None =>
        match indexOf name (builtinNames cfg) 0 with
        | Some i =>
            if decide (name ∈ disabledBuiltins cfg)
            then CErr (DisabledBuiltin name pos)
            else COk ([OpGetBuiltin i], st)
        | None => CErr (UndefinedIdentifier name pos)
        end
    end.

Fixpoint firstDuplicate (names : list string) : option string :=
  match names with
  | [] => None
  | n :: names' => if decide (n ∈ names') then Some n else firstDuplicate names'
  end.

(** Opens the scope of a function literal and defines its parameters. *)
Definition enterScope (params : list string) (sc : Scopes) : Scopes :=
  foldl (λ sc p, (define p sc).2)
        {| inner := NewSymbolTable :: inner sc; global := global sc |} params.

Section compile.
Variable cfg : Config.
Variable importModule : Importer.

Definition compileImport (pos : Pos) (name : string) : M (list Instr) :=
  λ st,
    if decide (name ∈ disabledModules cfg ∨ name ∈ disabledBuiltins cfg)
    then CErr (DisabledModule name pos)
    else match importModule pos name (constants st) (modules st) with
         | COk (code, pool, mods) =>
             COk (code, {| scopes := scopes st; constants := pool; modules := mods |})
         | CErr e => CErr e
         | CFuel => CFuel
         end.

(** Closes the scope of a function literal whose body compiled to
    [code]: the function becomes a constant, and the instructions that
    build the closure load the captured cells in capture order. *)
Definition leaveScope (nparams : nat) (va : bool) (code : list Instr) : M (list Instr) :=
  λ st,
    match inner (scopes st) with
    | [] => COk ([], st)
    | t :: outer =>
        let fn := {| Instructions := code ++ [OpReturn];
                     NumLocals := numDefinition t;
                     NumParameters := nparams;
                     VarArgs := va;
                     ModuleName := None |} in
        let st' := setScopes {| inner := outer; global := global (scopes st) |} st in
        (i <~ addConstant (VFunction fn) ;;
         cret ((captureSymbol <$> freeSymbols t) ++ [OpClosure i (length (freeSymbols t))])) st'
    end.

(** Modelled from the spec: the compiler of section 4.3 (package
    compiler is not among the sources).  It walks the tree and returns the
    instructions of each node; a function literal opens a scope of its own
    and becomes a constant; [lhs := rhs] defines [lhs] and then compiles
    [rhs], so that a function can refer to its own name. *)
Fixpoint compileExpr (e : Expr) : M (list Instr) :=
  match e with
  | IntLit v => i <~ addConstant (VInt v) ;; cret [OpConstant i]
  | FloatLit v => i <~ addConstant (VFloat v) ;; cret [OpConstant i]
  | StringLit v => i <~ addConstant (VString v) ;; cret [OpConstant i]
  | CharLit v => i <~ addConstant (VChar v) ;; cret [OpConstant i]
  | BoolLit v => cret [if v then OpTrue else OpFalse]
  | UndefinedLit => cret [OpNull]
  | Ident pos name => compileIdent cfg pos name
  | BinaryExpr op lhs rhs =>
      cl <~ compileExpr lhs ;;
      cr <~ compileExpr rhs ;;
      cret (cl ++ cr ++ [OpBinaryOp op])
  | UnaryExpr op operand =>
      c <~ compileExpr operand ;;
      cret (c ++ match op with TokMinus => [OpMinus] | TokPlus => [] end)
  | ArrayLit elements =>
      r <~ compileExprs elements ;;
      cret (r.1 ++ [OpArray r.2])
  | IndexExpr operand index =>
      co <~ compileExpr operand ;;
      ci <~ compileExpr index ;;
      cret (co ++ ci ++ [OpIndex])
  | SelectorExpr operand sel =>
      co <~ compileExpr operand ;;
      i <~ addConstant (VString sel) ;;
      cret (co ++ [OpConstant i; OpIndex])
  | CallExpr func args =>
      cf <~ compileExpr func ;;
      r <~ compileExprs args ;;
      cret (cf ++ r.1 ++ [OpCall r.2])
  | FuncLit pos params va body =>
      match firstDuplicate params with
      | Some p => cfail (DuplicateParameter p pos)
      | None =>
          λ st,
            (code <~ compileStmts body ;;
             leaveScope (length params) va code)
              (setScopes (enterScope params (scopes st)) st)
      end
  | ImportExpr pos name => compileImport pos name
  end
with compileExprs (es : Exprs) : M (list Instr * nat) :=
  match es with
  | ENil => cret ([], 0%nat)
  | ECons e es' =>
      c <~ compileExpr e ;;
      r <~ compileExprs es' ;;
      cret (c ++ r.1, S r.2)
  end
with compileStmt (s : Stmt) : M (list Instr) :=
  match s with
  | AssignStmt pos TokDefine lhs rhs =>
      λ st,
        let '(sym, sc) := define lhs (scopes st) in
        (c <~ compileExpr rhs ;; cret (c ++ [storeSymbol sym])) (setScopes sc st)
  | AssignStmt pos TokAssign lhs rhs =>
      λ st,
        match resolve lhs (scopes st) with
        | None => CErr (UndefinedIdentifier lhs pos)
        | Some (sym, sc) =>
            (c <~ compileExpr rhs ;; cret (c ++ [storeSymbol sym])) (setScopes sc st)
        end
  | ExprStmt e => c <~ compileExpr e ;; cret (c ++ [OpPop])
  | ReturnStmt result => c <~ compileExpr result ;; cret (c ++ [OpReturnValue])
  | ReturnVoid => cret [OpReturn]
  end
with compileStmts (ss : Stmts) : M (list Instr) :=
  match ss with
  | SNil => cret []
  | SCons s ss' =>
      c <~ compileStmt s ;;
      cs <~ compileStmts ss' ;;
      cret (c ++ cs)
  end.
End compile.

(** ** The module resolver (section 4.5) *)

(** The sources an import name can resolve to.  Source text is held as the
    syntax tree the front end makes of it. *)
Definition ModuleLoader : Type := string → option Stmts.

Record Resolver : Type := {
  scriptModules : gmap string Stmts;
  stdModules : gmap string Value;
  userModuleLoader : ModuleLoader
}.

(** The top-level definitions of a module, which its entry function
    returns as an immutable map when the module body has not returned. *)
Definition exportedSymbols (t : SymbolTable) : list Symbol :=
  filter (λ s, Scope s = ScopeLocal) (snd <$> map_to_list (store t)).

Fixpoint exportCode (syms : list Symbol) (pool : list Value) : list Instr * list Value :=
  match syms with
  | [] => ([], pool)
  | s :: syms' =>
      let '(i, pool1) := addConstantTo (VString (Name s)) pool in
      let '(code, pool2) := exportCode syms' pool1 in
      (OpConstant i :: OpGetLocal (Index s) :: code, pool2)
  end.

Section resolver.
Variable cfg : Config.
Variable res : Resolver.

(** Compiles the source of module [name] with [importModule] resolving
    its own imports.  The module is marked in progress meanwhile; its
    body is the body of its entry function, compiled in a scope stack of
    its own. *)
Definition compileModule (importModule : Importer) (name : string) (src : Stmts)
    (pool : list Value) (mods : gmap string ModuleState)
  : CResult (list Instr * list Value * gmap string ModuleState) :=
  let st0 := {| scopes := {| inner := [NewSymbolTable]; global := NewSymbolTable |};
                constants := pool;
                modules := <[name := InProgress]> mods |} in
  match compileStmts cfg importModule src st0 with
  | COk (body, st1) =>
      let t := default NewSymbolTable (head (inner (scopes st1))) in
      let syms := exportedSymbols t in
      let '(exports, pool1) := exportCode syms (constants st1) in
      let fn := {| Instructions :=
                     body ++ exports ++ [OpImmutableMap (length syms); OpReturnValue];
                   NumLocals := numDefinition t;
                   NumParameters := 0;
                   VarArgs := false;
                   ModuleName := Some name |} in
      let entry := length pool1 in
      COk ([OpConstant entry; OpCall 0], pool1 ++ [VFunction fn],
           <[name := Done entry]> (modules st1))
  | CErr e => CErr e
  | CFuel => CFuel
  end.

(** Modelled from the spec: the module resolver of section 4.5 (not among
    the sources).  Resolution of an import name: a module already compiled in this
    compilation is reused, one in progress is a circular import;
    otherwise (a) the pre-registered script modules, (b) the standard
    modules unless disabled, (c) the user module loader.  [depth] bounds
    the nesting of imports inside imported sources. *)
Fixpoint resolveModule (depth : nat) : Importer :=
  λ pos name pool mods,
    match depth with
    | O => CFuel
    | S depth' =>
        match mods !! name with
        | Some InProgress => CErr (CyclicImport name pos)
        | Some (Done entry) => COk ([OpConstant entry; OpCall 0], pool, mods)
        | None =>
            match scriptModules res !! name with
            | Some src => compileModule (resolveModule depth') name src pool mods
            | None =>
                match stdModules res !! name with
                | Some v =>
                    if decide (name ∈ disabledModules cfg)
                    then CErr (DisabledModule name pos)
                    else COk ([OpConstant (length pool)], pool ++ [v], mods)
                | None =>
                    match userModuleLoader res name with
                    | Some src => compileModule (resolveModule depth') name src pool mods
                    | None => CErr (ModuleNotFound name pos)
                    end
                end
            end
        end
    end.
End resolver.

(** The compiled bundle: entry function, constant pool, and the number of
    global slots to allocate. *)
Record Bytecode : Type := {
  MainFunction : CompiledFunction;
  Constants : list Value;
  NumGlobals : nat
}.

(** Compile: (AST, sandbox configuration, module resolver) to Bytecode or
    error, starting from the symbol table [symbols] of the pre-defined
    globals.  The extended symbol table is returned with the bytecode. *)
Definition compileProgram (depth : nat) (cfg : Config) (res : Resolver)
    (symbols : SymbolTable) (file : Stmts) : CResult (Bytecode * SymbolTable) :=
  let st0 := {| scopes := {| inner := []; global := symbols |};
                constants := [];
                modules := ∅ |} in
  match compileStmts cfg (resolveModule cfg res depth) file st0 with
  | COk (code, st) =>
      let g := global (scopes st) in
      COk ({| MainFunction := {| Instructions := code;
                                 NumLocals := 0;
                                 NumParameters := 0;
                                 VarArgs := false;
                                 ModuleName := None |};
              Constants := constants st;
              NumGlobals := numDefinition g |}, g)
  | CErr e => CErr e
  | CFuel => CFuel
  end.

(** ** The virtual machine (section 4.6) *)

(** Modelled from the spec: the operand stack and the frame stack are
    bounded; the bounds themselves are constants of package runtime, which
    is not among the sources. *)
Definition StackSize : nat := 2048.
Definition MaxFrames : nat := 1024.

Inductive RuntimeError : Type :=
  | StackOverflow
  | CallDepthExceeded
  | DivisionByZero
  | TypeMismatch (op : Token) (lhs rhs : ObjectType)
  | InvalidOperand (t : ObjectType)
  | NotCallable (t : ObjectType)
  | NotIndexable (t : ObjectType)
  | InvalidIndexType (t : ObjectType)
  | ArgumentCountMismatch (want got : nat)
  | HostFailure (msg : string)
  | InvalidBytecode.

(** What a builtin or host function hands back to the machine: a value,
    an error (misuse), or a failure of the callback itself. *)
Inductive CallResult : Type :=
  | Returned (v : Value)
  | Misuse (e : error)
  | Failure (msg : string).

(** An operand-stack entry: a value, or the address of a cell on its way
    into a closure. *)
Inductive Slot : Type :=
  | SVal (v : Value)
  | SPtr (cell : nat).

(** Modelled from the spec: an activation record (section 3).  Local
    variables live in cells, captured or not, so that a closure shares the
    captured variable with its enclosing function; [frLocals] and [frFree]
    hold cell addresses. *)
Record Frame : Type := {
  frFn : CompiledFunction;
  frIp : nat;
  frBase : nat;
  frLocals : list nat;
  frFree : list nat
}.

Record VM : Type := {
  vmConstants : list Value;
  vmGlobals : list Value;
  vmStack : list Slot;
  vmFrames : list Frame;
  vmCells : list Value;
  vmLoaded : gmap string Value
}.

Inductive StepResult : Type :=
  | Continue (vm : VM)
  | Halt (vm : VM)
  | Fault (e : RuntimeError).

(** The view a builtin of package objects has of a machine value: the
    canonical objects for undefined and the booleans, and for any other
    value an object of its variant at some other address. *)
Definition toObject (v : Value) : Object :=
  match v with
  | VUndefined => UndefinedValue
  | VBool true => TrueValue
  | VBool false => FalseValue
  | _ => Iface (typeOf v) 16
  end.

Definition fromOutcome (o : outcome) : CallResult :=
  match o with
  | Return r nil_error =>
      if iface_eq r TrueValue then Returned (VBool true)
      else if iface_eq r FalseValue then Returned (VBool false)
      else if iface_eq r UndefinedValue then Returned VUndefined
      else Failure "unexpected object"
  | Return _ e => Misuse e
  | Panic msg => Failure msg
  end.

(** Modelled from the spec: [len], the builtin the script tests call; its
    source (objects/builtin_len.go) is not among the sources. *)
Definition builtinLen (args : list Value) : CallResult :=
  match args with
  | [v] =>
      match v with
      | VArray xs | VImmutableArray xs => Returned (VInt (Z.of_nat (length xs)))
      | VString s => Returned (VInt (Z.of_nat (String.length s)))
      | VBytes bs => Returned (VInt (Z.of_nat (length bs)))
      | VMap m | VImmutableMap m => Returned (VInt (Z.of_nat (size m)))
      | _ => Misuse ErrInvalidArgumentType
      end
  | _ => Misuse ErrWrongNumArguments
  end.

Definition typeCheckName (c : TypeCheck) : string :=
  match c with
  | is_string => "is_string"
  | is_int => "is_int"
  | is_float => "is_float"
  | is_bool => "is_bool"
  | is_char => "is_char"
  | is_bytes => "is_bytes"
  | is_array => "is_array"
  | is_immutable_array => "is_immutable_array"
  | is_map => "is_map"
  | is_immutable_map => "is_immutable_map"
  | is_time => "is_time"
  | is_error => "is_error"
  | is_undefined => "is_undefined"
  end.

Definition allTypeChecks : list TypeCheck :=
  [is_string; is_int; is_float; is_bool; is_char; is_bytes; is_array;
   is_immutable_array; is_map; is_immutable_map; is_time; is_error; is_undefined].

(** Modelled from the spec: the builtin registry (objects/builtins.go is
    not among the sources), holding [len] and the thirteen type checks of
    Part I. *)
Definition Builtins : list (string * (list Value → CallResult)) :=
  ("len", builtinLen)
  :: ((λ c, (typeCheckName c, λ args, fromOutcome (typeCheckFn c (toObject <$> args))))
        <$> allTypeChecks).

Definition errorMessage (e : error) : string :=
  match e with
  | nil_error => ""
  | ErrWrongNumArguments => "wrong number of arguments"
  | ErrInvalidArgumentType => "invalid type for argument"
  end.

(** The (operator, left variant, right variant) table. *)
Definition binaryOp (op : Token) (l r : Value) : RuntimeError + Value :=
  match l, r with
  | VInt a, VInt b =>
      match op with
      | TokAdd => inr (VInt (wrap64 (a + b)))
      | TokSub => inr (VInt (wrap64 (a - b)))
      | TokMul => inr (VInt (wrap64 (a * b)))
      | TokQuo => if decide (b = 0) then inl DivisionByZero
                  else inr (VInt (wrap64 (Z.quot a b)))
      | TokRem => if decide (b = 0) then inl DivisionByZero
                  else inr (VInt (wrap64 (Z.rem a b)))
      end
  | VFloat a, VFloat b =>
      match op with
      | TokAdd => inr (VFloat (a + b)%float)
      | TokSub => inr (VFloat (a - b)%float)
      | TokMul => inr (VFloat (a * b)%float)
      | TokQuo => inr (VFloat (a / b)%float)
      | TokRem => inl (TypeMismatch op TFloat TFloat)
      end
  | VString a, VString b =>
      match op with
      | TokAdd => inr (VString (a +:+ b))
      | _ => inl (TypeMismatch op TString TString)
      end
  | _, _ => inl (TypeMismatch op (typeOf l) (typeOf r))
  end.

Definition unaryMinus (v : Value) : RuntimeError + Value :=
  match v with
  | VInt a => inr (VInt (wrap64 (- a)))
  | VFloat a => inr (VFloat (- a)%float)
  | _ => inl (InvalidOperand (typeOf v))
  end.

(** Indexed read.  An index that is negative or past the end reads
    Undefined, as does an absent key. *)
Definition indexGet (obj idx : Value) : RuntimeError + Value :=
  match obj with
  | VArray xs | VImmutableArray xs =>
      match idx with
      | VInt i => if decide (i < 0) then inr VUndefined
                  else inr (default VUndefined (xs !! Z.to_nat i))
      | _ => inl (InvalidIndexType (typeOf idx))
      end
  | VBytes bs =>
      match idx with
      | VInt i => if decide (i < 0) then inr VUndefined
                  else inr (default VUndefined (VInt <$> bs !! Z.to_nat i))
      | _ => inl (InvalidIndexType (typeOf idx))
      end
  | VMap m | VImmutableMap m =>
      match idx with
      | VString k => inr (default VUndefined (m !! k))
      | _ => inl (InvalidIndexType (typeOf idx))
      end
  | _ => inl (NotIndexable (typeOf obj))
  end.

(** Binding of the arguments of a call to the parameter slots. *)
Definition bindArgs (fn : CompiledFunction) (args : list Value)
  : RuntimeError + list Value :=
  let p := NumParameters fn in
  let n := length args in
  if VarArgs fn then
    let fixed := (p - 1)%nat in
    inr (take fixed (args ++ replicate (fixed - n) VUndefined)
         ++ [VArray (drop fixed args)])
  else if (p <? n)%nat then inl (ArgumentCountMismatch p n)
  else inr (args ++ replicate (p - n) VUndefined).

Definition popValue (st : list Slot) : option (Value * list Slot) :=
  match st with
  | SVal v :: st' => Some (v, st')
  | _ => None
  end.

(** The [n] topmost values, in the order they were pushed. *)
Fixpoint popValues (n : nat) (st : list Slot) (acc : list Value)
  : option (list Value * list Slot) :=
  match n with
  | O => Some (acc, st)
  | S n' =>
      match st with
      | SVal v :: st' => popValues n' st' (v :: acc)
      | _ => None
      end
  end.

Fixpoint popPtrs (n : nat) (st : list Slot) (acc : list nat)
  : option (list nat * list Slot) :=
  match n with
  | O => Some (acc, st)
  | S n' =>
      match st with
      | SPtr c :: st' => popPtrs n' st' (c :: acc)
      | _ => None
      end
  end.

(** Key and value pairs of a map under construction. *)
Fixpoint pairUp (vs : list Value) : option (gmap string Value) :=
  match vs with
  | [] => Some ∅
  | VString k :: v :: vs' =>
      match pairUp vs' with
      | Some m => Some (<[k := v]> m)
      | None => None
      end
  | _ => None
  end.

Definition setStack (st : list Slot) (vm : VM) : VM :=
  {| vmConstants := vmConstants vm; vmGlobals := vmGlobals vm; vmStack := st;
     vmFrames := vmFrames vm; vmCells := vmCells vm; vmLoaded := vmLoaded vm |}.

Definition setGlobals (gs : list Value) (vm : VM) : VM :=
  {| vmConstants := vmConstants vm; vmGlobals := gs; vmStack := vmStack vm;
     vmFrames := vmFrames vm; vmCells := vmCells vm; vmLoaded := vmLoaded vm |}.

Definition setFrames (frs : list Frame) (vm : VM) : VM :=
  {| vmConstants := vmConstants vm; vmGlobals := vmGlobals vm; vmStack := vmStack vm;
     vmFrames := frs; vmCells := vmCells vm; vmLoaded := vmLoaded vm |}.

Definition setCells (cs : list Value) (vm : VM) : VM :=
  {| vmConstants := vmConstants vm; vmGlobals := vmGlobals vm; vmStack := vmStack vm;
     vmFrames := vmFrames vm; vmCells := cs; vmLoaded := vmLoaded vm |}.

Definition setLoaded (ld : gmap string Value) (vm : VM) : VM :=
  {| vmConstants := vmConstants vm; vmGlobals := vmGlobals vm; vmStack := vmStack vm;
     vmFrames := vmFrames vm; vmCells := vmCells vm; vmLoaded := ld |}.

(** Pushes onto the bounded operand stack. *)
Definition pushSlot (s : Slot) (vm : VM) : StepResult :=
  if (length (vmStack vm) <? StackSize)%nat
  then Continue (setStack (s :: vmStack vm) vm)
  else Fault StackOverflow.

Definition push (v : Value) (vm : VM) : StepResult := pushSlot (SVal v) vm.

Definition pushResult (r : RuntimeError + Value) (vm : VM) : StepResult :=
  match r with
  | inr v => push v vm
  | inl e => Fault e
  end.

(** Writes through a cell address; the address of a live cell is in range. *)
Definition writeCell (c : nat) (v : Value) (vm : VM) : StepResult :=
  if (c <? length (vmCells vm))%nat
  then Continue (setCells (<[c := v]> (vmCells vm)) vm)
  else Fault InvalidBytecode.

(** Pops the current frame [fr] and hands [v] to the caller; the run is
    over when the entry function returns.  The value a module's entry
    function returns is kept for later imports of it in the same run. *)
Definition returnValue (v : Value) (fr : Frame) (callers : list Frame) (st : list Slot)
    (vm : VM) : StepResult :=
  let vm1 := match ModuleName (frFn fr) with
             | Some m => setLoaded (<[m := v]> (vmLoaded vm)) vm
             | None => vm
             end in
  let st' := drop (length st - frBase fr) st in
  match callers with
  | [] => Halt (setFrames [] (setStack st' vm1))
  | _ => push v (setFrames callers (setStack st' vm1))
  end.

Inductive RunResult : Type :=
  | Finished (vm : VM)
  | Failed (e : RuntimeError)
  | OutOfFuel.

Section machine.
(** The host functions the machine can call, by name. *)
Variable userFunctions : gmap string (list Value → CallResult).

(** A builtin or host function receives the popped arguments directly.
    Misuse comes back as an Error value, a value the script sees like any
    other; a failed callback ends the run. *)
Definition callHost (r : CallResult) (vm : VM) : StepResult :=
  match r with
  | Returned v => push v vm
  | Misuse e => push (VError (VString (errorMessage e))) vm
  | Failure msg => Fault (HostFailure msg)
  end.

Definition callFunction (fn : CompiledFunction) (free : list nat) (args : list Value)
    (vm : VM) : StepResult :=
  match ModuleName fn ≫= (λ m, vmLoaded vm !! m) with
  | Some v => push v vm
  | None =>
      match bindArgs fn args with
      | inl e => Fault e
      | inr params =>
          if (length (vmFrames vm) <? MaxFrames)%nat then
            let base := length (vmCells vm) in
            let nlocals := (NumLocals fn `max` length params)%nat in
            let fresh := params ++ replicate (nlocals - length params) VUndefined in
            Continue (setFrames ({| frFn := fn; frIp := 0%nat;
                                    frBase := length (vmStack vm);
                                    frLocals := seq base nlocals;
                                    frFree := free |} :: vmFrames vm)
                        (setCells (vmCells vm ++ fresh) vm))
          else Fault CallDepthExceeded
      end
  end.

Definition call (callee : Value) (args : list Value) (vm : VM) : StepResult :=
  match callee with
  | VFunction fn => callFunction fn [] args vm
  | VClosure fn free => callFunction fn free args vm
  | VBuiltinFunction name =>
      match list_find (λ b, b.1 = name) Builtins with
      | Some (_, (_, f)) => callHost (f args) vm
      | None => Fault InvalidBytecode
      end
  | VUserFunction name =>
      match userFunctions !! name with
      | Some f => callHost (f args) vm
      | None => Fault (HostFailure name)
      end
  | _ => Fault (NotCallable (typeOf callee))
  end.

(** Modelled from the spec: the instruction loop of section 4.6 (package
    runtime is not among the sources).  [exec] executes [ins] in machine
    [vm], whose current frame [fr] (already advanced past [ins]) sits on
    top of [callers]. *)
Definition exec (ins : Instr) (fr : Frame) (callers : list Frame) (vm : VM)
  : StepResult :=
  let st := vmStack vm in
  match ins with
  | OpConstant i =>
      match vmConstants vm !! i with
      | Some v => push v vm
      | None => Fault InvalidBytecode
      end
  | OpPop =>
      match st with
      | _ :: st' => Continue (setStack st' vm)
      | [] => Fault InvalidBytecode
      end
  | OpTrue => push (VBool true) vm
  | OpFalse => push (VBool false) vm
  | OpNull => push VUndefined vm
  | OpBinaryOp op =>
      match popValues 2 st [] with
      | Some ([l; r], st') => pushResult (binaryOp op l r) (setStack st' vm)
      | _ => Fault InvalidBytecode
      end
  | OpMinus =>
      match popValue st with
      | Some (v, st') => pushResult (unaryMinus v) (setStack st' vm)
      | None => Fault InvalidBytecode
      end
  | OpGetGlobal i =>
      match vmGlobals vm !! i with
      | Some v => push v vm
      | None => Fault InvalidBytecode
      end
  | OpSetGlobal i =>
      match popValue st with
      | Some (v, st') =>
          if (i <? length (vmGlobals vm))%nat
          then Continue (setGlobals (<[i := v]> (vmGlobals vm)) (setStack st' vm))
          else Fault InvalidBytecode
      | None => Fault InvalidBytecode
      end
  | OpGetLocal i =>
      match frLocals fr !! i ≫= (λ c, vmCells vm !! c) with
      | Some v => push v vm
      | None => Fault InvalidBytecode
      end
  | OpSetLocal i =>
      match popValue st, frLocals fr !! i with
      | Some (v, st'), Some c => writeCell c v (setStack st' vm)
      | _, _ => Fault InvalidBytecode
      end
  | OpGetFree i =>
      match frFree fr !! i ≫= (λ c, vmCells vm !! c) with
      | Some v => push v vm
      | None => Fault InvalidBytecode
      end
  | OpSetFree i =>
      match popValue st, frFree fr !! i with
      | Some (v, st'), Some c => writeCell c v (setStack st' vm)
      | _, _ => Fault InvalidBytecode
      end
  | OpGetLocalPtr i =>
      match frLocals fr !! i with
      | Some c => pushSlot (SPtr c) vm
      | None => Fault InvalidBytecode
      end
  | OpGetFreePtr i =>
      match frFree fr !! i with
      | Some c => pushSlot (SPtr c) vm
      | None => Fault InvalidBytecode
      end
  | OpGetBuiltin i =>
      match Builtins !! i with
      | Some (name, _) => push (VBuiltinFunction name) vm
      | None => Fault InvalidBytecode
      end
  | OpArray n =>
      match popValues n st [] with
      | Some (xs, st') => push (VArray xs) (setStack st' vm)
      | None => Fault InvalidBytecode
      end
  | OpImmutableMap n =>
      match popValues (2 * n) st [] with
      | Some (kvs, st') =>
          match pairUp kvs with
          | Some m => push (VImmutableMap m) (setStack st' vm)
          | None => Fault InvalidBytecode
          end
      | None => Fault InvalidBytecode
      end
  | OpIndex =>
      match popValues 2 st [] with
      | Some ([obj; idx], st') => pushResult (indexGet obj idx) (setStack st' vm)
      | _ => Fault InvalidBytecode
      end
  | OpCall n =>
      match popValues n st [] with
      | Some (args, st') =>
          match popValue st' with
          | Some (callee, st'') => call callee args (setStack st'' vm)
          | None => Fault InvalidBytecode
          end
      | None => Fault InvalidBytecode
      end
  | OpReturn => returnValue VUndefined fr callers st vm
  | OpReturnValue =>
      match popValue st with
      | Some (v, st') => returnValue v fr callers st' vm
      | None => Fault InvalidBytecode
      end
  | OpClosure i nfree =>
      match vmConstants vm !! i, popPtrs nfree st [] with
      | Some (VFunction fn), Some (free, st') =>
          push (VClosure fn free) (setStack st' vm)
      | _, _ => Fault InvalidBytecode
      end
  end.

(** Fetch, decode, execute.  The run ends when the entry function runs
    off the end of its instructions or returns. *)
Definition step (vm : VM) : StepResult :=
  match vmFrames vm with
  | [] => Halt vm
  | fr :: callers =>
      match Instructions (frFn fr) !! frIp fr with
      | Some ins =>
          let fr' := {| frFn := frFn fr; frIp := S (frIp fr); frBase := frBase fr;
                        frLocals := frLocals fr; frFree := frFree fr |} in
          exec ins fr' callers (setFrames (fr' :: callers) vm)
      | None =>
          match callers with
          | [] => Halt vm
          | _ => Fault InvalidBytecode
          end
      end
  end.

Fixpoint run (fuel : nat) (vm : VM) : RunResult :=
  match fuel with
  | O => OutOfFuel
  | S fuel' =>
      match step vm with
      | Continue vm' => run fuel' vm'
      | Halt vm' => Finished vm'
      | Fault e => Failed e
      end
  end.

(** Run: (Bytecode, globals-in) to globals-out or the error that ended
    the run.  The global slots are allocated by the bytecode's count. *)
Definition NewVM (bc : Bytecode) (globals : list Value) : VM :=
  {| vmConstants := Constants bc;
     vmGlobals := take (NumGlobals bc)
                    (globals ++ replicate (NumGlobals bc - length globals) VUndefined);
     vmStack := [];
     vmFrames := [{| frFn := MainFunction bc; frIp := 0%nat; frBase := 0%nat;
                     frLocals := []; frFree := [] |}];
     vmCells := [];
     vmLoaded := ∅ |}.
End machine.

(** ** Host values and their conversion (section 4.1, section 6) *)

(** A value of the host language, by its host type. *)
Inductive HostValue : Type :=
  | HNil
  | HString (s : string)
  | HInt64 (n : Z)
  | HInt (n : Z)
  | HBool (b : bool)
  | HRune (c : Z)
  | HByte (c : Z)
  | HFloat64 (f : float)
  | HBytes (bs : list Z)
  | HTime (t : Z)
  | HError (msg : string)
  | HMapObject (m : gmap string Value)
  | HMap (m : gmap string HostValue)
  | HSliceObject (xs : list Value)
  | HSlice (xs : list HostValue)
  | HObject (v : Value)
  | HUnsupported (goType : string).

(** All elements converted, or none. *)
Definition allSome {A} (m : gmap string (option A)) : option (gmap string A) :=
  if decide (map_Forall (λ _ o, is_Some o) m)
  then Some (omap id m) else None.

(** Modelled from the spec: the conversion table of host values (the
    conversion function of package script is not among the sources):
    nil to Undefined, string to String, int and int64 to Int, bool to Bool,
    rune and byte to Char, float64 to Float, byte sequence to Bytes, time to
    Time, error to Error of String, string-keyed map to Map, sequence to
    Array, element-wise for nested host collections; an Object is taken as
    it is.  A host type outside the table is an error. *)
Fixpoint FromInterface (h : HostValue) : option Value :=
  match h with
  | HNil => Some VUndefined
  | HString s => Some (VString s)
  | HInt64 n => Some (VInt n)
  | HInt n => Some (VInt n)
  | HBool b => Some (VBool b)
  | HRune c => Some (VChar c)
  | HByte c => Some (VChar c)
  | HFloat64 f => Some (VFloat f)
  | HBytes bs => Some (VBytes bs)
  | HTime t => Some (VTime t)
  | HError msg => Some (VError (VString msg))
  | HMapObject m => Some (VMap m)
  | HMap m => VMap <$> allSome (FromInterface <$> m)
  | HSliceObject xs => Some (VArray xs)
  | HSlice xs => VArray <$> mapM id (FromInterface <$> xs)
  | HObject v => Some v
  | HUnsupported _ => None
  end.

(** Modelled from the spec: the reverse direction for the elements of a
    container, each variant back to the host type of its table row (Int to
    int64, Char to rune); a variant outside the table stays an Object. *)
Fixpoint ToInterface (v : Value) : HostValue :=
  match v with
  | VUndefined => HNil
  | VString s => HString s
  | VInt n => HInt64 n
  | VBool b => HBool b
  | VChar c => HRune c
  | VFloat f => HFloat64 f
  | VBytes bs => HBytes bs
  | VTime t => HTime t
  | VError (VString msg) => HError msg
  | VMap m => HMap (ToInterface <$> m)
  | VArray xs => HSlice (ToInterface <$> xs)
  | _ => HObject v
  end.

(** A script variable: a name bound to a value. *)
Record ScriptVariable : Type := {
  varName : string;
  varValue : Value
}.

(** Modelled from the spec: the typed accessors of a variable (package
    script's variable.go is not among the sources).  Each returns the
    stored datum when the variant matches the requested host type, and the
    zero value of that type otherwise. *)
Definition Variable_Int (x : ScriptVariable) : Z :=
  match varValue x with VInt n => n | _ => 0 end.
Definition Variable_Int64 (x : ScriptVariable) : Z :=
  match varValue x with VInt n => n | _ => 0 end.
Definition Variable_Float (x : ScriptVariable) : float :=
  match varValue x with VFloat f => f | _ => 0%float end.
Definition Variable_Char (x : ScriptVariable) : Z :=
  match varValue x with VChar c => c | _ => 0 end.
Definition Variable_Bool (x : ScriptVariable) : bool :=
  match varValue x with VBool b => b | _ => false end.
Definition Variable_String (x : ScriptVariable) : string :=
  match varValue x with VString s => s | _ => "" end.
Definition Variable_Bytes (x : ScriptVariable) : list Z :=
  match varValue x with VBytes bs => bs | _ => [] end.
Definition Variable_Time (x : ScriptVariable) : Z :=
  match varValue x with VTime t => t | _ => 0 end.
(** The error accessor gives the message of the error, [None] being nil. *)
Definition Variable_Error (x : ScriptVariable) : option string :=
  match varValue x with VError (VString msg) => Some msg | _ => None end.
Definition Variable_Array (x : ScriptVariable) : list HostValue :=
  match varValue x with VArray xs => ToInterface <$> xs | _ => [] end.
Definition Variable_Map (x : ScriptVariable) : gmap string HostValue :=
  match varValue x with VMap m => ToInterface <$> m | _ => ∅ end.
Definition Variable_IsUndefined (x : ScriptVariable) : bool :=
  match varValue x with VUndefined => true | _ => false end.
Definition Variable_Value (x : ScriptVariable) : HostValue := ToInterface (varValue x).
Definition Variable_Object (x : ScriptVariable) : Value := varValue x.

(** Host containers whose elements already have the host types the
    reverse direction produces. *)
Fixpoint canonical (h : HostValue) : bool :=
  match h with
  | HNil | HString _ | HInt64 _ | HBool _ | HRune _ | HFloat64 _
  | HBytes _ | HTime _ | HError _ => true
  | HMap m => bool_decide (map_Forall (λ _ b, b = true) (canonical <$> m))
  | HSlice xs => forallb canonical xs
  | _ => false
  end.

(** ** The standard library registry *)

Definition mathAbs (args : list Value) : CallResult :=
  match args with
  | [VFloat f] => Returned (VFloat (abs f))
  | [_] => Misuse ErrInvalidArgumentType
  | _ => Misuse ErrWrongNumArguments
  end.

(** Modelled from the spec: a standard module is a fixed table from names
    to host functions.  The module bodies are outside the core; the
    registry here holds the one module, and of it the one function, that
    the script tests import and call. *)
Definition stdlibFunctions : gmap string (list Value → CallResult) :=
  {[ "math.abs" := mathAbs ]}.

Definition stdlibModules : gmap string Value :=
  {[ "math" := VImmutableMap {[ "abs" := VUserFunction "math.abs" ]} ]}.

(** ** The embedding facade: package script *)

(** Modelled from the spec: [Script] and [Compiled] of package script, as
    the tests in script_test.go and the interoperability notes use them
    (script.go and compiled.go are not among the sources).  The input is
    the syntax tree of the source text. *)
Record Script : Type := {
  variables : gmap string Value;
  removedBuiltins : gset string;
  removedStdModules : gset string;
  addedModules : gmap string Stmts;
  moduleLoader : option ModuleLoader;
  input : Stmts
}.

Definition New (src : Stmts) : Script :=
  {| variables := ∅; removedBuiltins := ∅; removedStdModules := ∅;
     addedModules := ∅; moduleLoader := None; input := src |}.

(** [Add] defines or redefines a variable; it fails on a host value
    outside the conversion table and then leaves the script as it is. *)
Definition Add (name : string) (value : HostValue) (s : Script) : option Script :=
  match FromInterface value with
  | Some v =>
      Some {| variables := <[name := v]> (variables s);
              removedBuiltins := removedBuiltins s;
              removedStdModules := removedStdModules s;
              addedModules := addedModules s;
              moduleLoader := moduleLoader s;
              input := input s |}
  | None => None
  end.

(** [Remove] reports whether the variable was there. *)
Definition Remove (name : string) (s : Script) : bool * Script :=
  (bool_decide (is_Some (variables s !! name)),
   {| variables := delete name (variables s);
      removedBuiltins := removedBuiltins s;
      removedStdModules := removedStdModules s;
      addedModules := addedModules s;
      moduleLoader := moduleLoader s;
      input := input s |}).

Definition DisableBuiltinFunction (name : string) (s : Script) : Script :=
  {| variables := variables s;
     removedBuiltins := {[ name ]} ∪ removedBuiltins s;
     removedStdModules := removedStdModules s;
     addedModules := addedModules s;
     moduleLoader := moduleLoader s;
     input := input s |}.

Definition DisableStdModule (name : string) (s : Script) : Script :=
  {| variables := variables s;
     removedBuiltins := removedBuiltins s;
     removedStdModules := {[ name ]} ∪ removedStdModules s;
     addedModules := addedModules s;
     moduleLoader := moduleLoader s;
     input := input s |}.

Definition SetUserModuleLoader (loader : ModuleLoader) (s : Script) : Script :=
  {| variables := variables s;
     removedBuiltins := removedBuiltins s;
     removedStdModules := removedStdModules s;
     addedModules := addedModules s;
     moduleLoader := Some loader;
     input := input s |}.

Definition AddModule (name : string) (m : Script) (s : Script) : Script :=
  {| variables := variables s;
     removedBuiltins := removedBuiltins s;
     removedStdModules := removedStdModules s;
     addedModules := <[name := input m]> (addedModules s);
     moduleLoader := moduleLoader s;
     input := input s |}.

Record Compiled : Type := {
  symbolTable : SymbolTable;
  bytecode : Bytecode;
  globals : list Value
}.

(** The symbol table and the global slots of the variables added to the
    script: each name is defined in the global scope and its value put in
    the slot of its index. *)
Definition prepCompile (vars : list (string * Value)) : SymbolTable * list Value :=
  foldl (λ acc nv,
           let '(s, t) := defineGlobal nv.1 acc.1 in
           (t, <[Index s := nv.2]> (acc.2 ++ [VUndefined])))
        (NewSymbolTable, []) vars.

Definition scriptConfig (s : Script) : Config :=
  {| builtinNames := fst <$> Builtins;
     disabledBuiltins := removedBuiltins s;
     disabledModules := removedStdModules s |}.

(** With no loader installed, the default one would read a file next to
    the importing unit; there are no files here, so it finds nothing. *)
Definition scriptResolver (s : Script) : Resolver :=
  {| scriptModules := addedModules s;
     stdModules := stdlibModules;
     userModuleLoader := default (λ _, None) (moduleLoader s) |}.

Definition padGlobals (n : nat) (gs : list Value) : list Value :=
  take n (gs ++ replicate (n - length gs) VUndefined).

Definition Compile (depth : nat) (s : Script) : CResult Compiled :=
  let '(symbols, gs) := prepCompile (map_to_list (variables s)) in
  match compileProgram depth (scriptConfig s) (scriptResolver s) symbols (input s) with
  | COk (bc, symbols') =>
      COk {| symbolTable := symbols'; bytecode := bc;
             globals := padGlobals (NumGlobals bc) gs |}
  | CErr e => CErr e
  | CFuel => CFuel
  end.

(** The outcome of running compiled code: the compiled unit with the
    global slots as the run left them, or the error that ended the run. *)
Inductive Ran : Type :=
  | RunOk (c : Compiled)
  | RunError (e : RuntimeError)
  | RunFuel.

Definition Compiled_Run (fuel : nat) (c : Compiled) : Ran :=
  match run stdlibFunctions fuel (NewVM (bytecode c) (globals c)) with
  | Finished vm =>
      RunOk {| symbolTable := symbolTable c; bytecode := bytecode c;
               globals := vmGlobals vm |}
  | Failed e => RunError e
  | OutOfFuel => RunFuel
  end.

(** The global slot of a name, if the name is defined. *)
Definition slotOf (name : string) (c : Compiled) : option nat :=
  Index <$> store (symbolTable c) !! name.

(** [Get] reads the slot of a name; an undefined name reads Undefined. *)
Definition Compiled_Get (name : string) (c : Compiled) : ScriptVariable :=
  {| varName := name;
     varValue := default VUndefined (slotOf name c ≫= (λ i, globals c !! i)) |}.

(** [Set] replaces the value in the slot of a name; it fails when the name
    is not defined or the host value is outside the conversion table. *)
Definition Compiled_Set (name : string) (value : HostValue) (c : Compiled)
  : option Compiled :=
  match slotOf name c, FromInterface value with
  | Some i, Some v =>
      Some {| symbolTable := symbolTable c; bytecode := bytecode c;
              globals := <[i := v]> (globals c) |}
  | _, _ => None
  end.

(** [Script.Run]: compile, then run once. *)
Inductive ScriptRan : Type :=
  | Executed (r : Ran)
  | CompileFailed (e : CompileError)
  | CompileFuel.

Definition Script_Run (depth fuel : nat) (s : Script) : ScriptRan :=
  match Compile depth s with
  | COk c => Executed (Compiled_Run fuel c)
  | CErr e => CompileFailed e
  | CFuel => CompileFuel
  end.

(** ** The scripts of the tests, as syntax trees *)

(** [a := b + 20] *)
Definition src_a_b_plus_20 : Stmts :=
  stmts_of [AssignStmt 1 TokDefine "a" (BinaryExpr TokAdd (Ident 6 "b") (IntLit 20))].

(** [a := b] *)
Definition src_a_b : Stmts :=
  stmts_of [AssignStmt 1 TokDefine "a" (Ident 6 "b")].

(** [a := len([1, 2, 3])] *)
Definition src_len : Stmts :=
  stmts_of [AssignStmt 1 TokDefine "a"
              (CallExpr (Ident 6 "len")
                 (exprs_of [ArrayLit (exprs_of [IntLit 1; IntLit 2; IntLit 3])]))].

(** [math := import("math"); a := math.abs(-19.84)] *)
Definition src_math : Stmts :=
  stmts_of [AssignStmt 1 TokDefine "math" (ImportExpr 9 "math");
            AssignStmt 25 TokDefine "a"
              (CallExpr (SelectorExpr (Ident 30 "math") "abs")
                 (exprs_of [UnaryExpr TokMinus (FloatLit 19.84)]))].

(** [math := import("mod1"); a := math.foo()] *)
Definition src_mod1_main : Stmts :=
  stmts_of [AssignStmt 1 TokDefine "math" (ImportExpr 9 "mod1");
            AssignStmt 25 TokDefine "a"
              (CallExpr (SelectorExpr (Ident 30 "math") "foo") ENil)].

(** [foo := func() { return 5 }] *)
Definition src_mod1 : Stmts :=
  stmts_of [AssignStmt 1 TokDefine "foo"
              (FuncLit 8 [] false (stmts_of [ReturnStmt (IntLit 5)]))].

(** The loader of the test: it knows [mod1] and nothing else. *)
Definition testLoader : ModuleLoader :=
  λ moduleName, if decide (moduleName = "mod1") then Some src_mod1 else None.

(** ** What a script mentions *)

(** The names a script refers to: identifiers it reads, and the targets
    of its plain assignments. *)
Fixpoint identsOfExpr (e : Expr) : list string :=
  match e with
  | Ident _ name => [name]
  | BinaryExpr _ lhs rhs => identsOfExpr lhs ++ identsOfExpr rhs
  | UnaryExpr _ operand => identsOfExpr operand
  | ArrayLit elements => identsOfExprs elements
  | IndexExpr operand index => identsOfExpr operand ++ identsOfExpr index
  | SelectorExpr operand _ => identsOfExpr operand
  | CallExpr func args => identsOfExpr func ++ identsOfExprs args
  | FuncLit _ _ _ body => identsOfStmts body
  | _ => []
  end
with identsOfExprs (es : Exprs) : list string :=
  match es with
  | ENil => []
  | ECons e es' => identsOfExpr e ++ identsOfExprs es'
  end
with identsOfStmt (s : Stmt) : list string :=
  match s with
  | AssignStmt _ TokDefine _ rhs => identsOfExpr rhs
  | AssignStmt _ TokAssign lhs rhs => lhs :: identsOfExpr rhs
  | ExprStmt e => identsOfExpr e
  | ReturnStmt result => identsOfExpr result
  | ReturnVoid => []
  end
with identsOfStmts (ss : Stmts) : list string :=
  match ss with
  | SNil => []
  | SCons s ss' => identsOfStmt s ++ identsOfStmts ss'
  end.

(** The names a script binds itself: targets of [:=] and parameters. *)
Fixpoint boundOfExpr (e : Expr) : list string :=
  match e with
  | BinaryExpr _ lhs rhs => boundOfExpr lhs ++ boundOfExpr rhs
  | UnaryExpr _ operand => boundOfExpr operand
  | ArrayLit elements => boundOfExprs elements
  | IndexExpr operand index => boundOfExpr operand ++ boundOfExpr index
  | SelectorExpr operand _ => boundOfExpr operand
  | CallExpr func args => boundOfExpr func ++ boundOfExprs args
  | FuncLit _ params _ body => params ++ boundOfStmts body
  | _ => []
  end
with boundOfExprs (es : Exprs) : list string :=
  match es with
  | ENil => []
  | ECons e es' => boundOfExpr e ++ boundOfExprs es'
  end
with boundOfStmt (s : Stmt) : list string :=
  match s with
  | AssignStmt _ TokDefine lhs rhs => lhs :: boundOfExpr rhs
  | AssignStmt _ TokAssign _ rhs => boundOfExpr rhs
  | ExprStmt e => boundOfExpr e
  | ReturnStmt result => boundOfExpr result
  | ReturnVoid => []
  end
with boundOfStmts (ss : Stmts) : list string :=
  match ss with
  | SNil => []
  | SCons s ss' => boundOfStmt s ++ boundOfStmts ss'
  end.

(** The module names a script imports. *)
Fixpoint importsOfExpr (e : Expr) : list string :=
  match e with
  | ImportExpr _ name => [name]
  | BinaryExpr _ lhs rhs => importsOfExpr lhs ++ importsOfExpr rhs
  | UnaryExpr _ operand => importsOfExpr operand
  | ArrayLit elements => importsOfExprs elements
  | IndexExpr operand index => importsOfExpr operand ++ importsOfExpr index
  | SelectorExpr operand _ => importsOfExpr operand
  | CallExpr func args => importsOfExpr func ++ importsOfExprs args
  | FuncLit _ _ _ body => importsOfStmts body
  | _ => []
  end
with importsOfExprs (es : Exprs) : list string :=
  match es with
  | ENil => []
  | ECons e es' => importsOfExpr e ++ importsOfExprs es'
  end
with importsOfStmt (s : Stmt) : list string :=
  match s with
  | AssignStmt _ _ _ rhs => importsOfExpr rhs
  | ExprStmt e => importsOfExpr e
  | ReturnStmt result => importsOfExpr result
  | ReturnVoid => []
  end
with importsOfStmts (ss : Stmts) : list string :=
  match ss with
  | SNil => []
  | SCons s ss' => importsOfStmt s ++ importsOfStmts ss'
  end.

(** No scope on the stack holds a symbol for [name]. *)
Definition unbound (name : string) (sc : Scopes) : Prop :=
  store (global sc) !! name = None
  ∧ Forall (λ t, store t !! name = None) (inner sc).

(** Every import of the script names a disabled module, so that no
    import reaches the module resolver. *)
Definition importsDisabled (cfg : Config) (imports : list string) : Prop :=
  Forall (λ m, m ∈ disabledModules cfg ∨ m ∈ disabledBuiltins cfg) imports.

(** [keeps n m]: a successful [m] leaves [n] unbound if it was. *)
Definition keeps (n : string) {A} (m : M A) : Prop :=
  ∀ st r, m st = COk r → unbound n (scopes st) → unbound n (scopes r.2).

(** [fails n m]: [m] does not succeed from a state where [n] is unbound. *)
Definition fails (n : string) {A} (m : M A) : Prop :=
  ∀ st r, unbound n (scopes st) → m st ≠ COk r.

(** [neverOk m]: [m] succeeds from no state. *)
Definition neverOk {A} (m : M A) : Prop := ∀ st r, m st ≠ COk r.

(** [noFuel m]: [m] never stops on the bound of the import depth. *)
Definition noFuel {A} (m : M A) : Prop := ∀ st, m st ≠ CFuel.

(** The state in which the compilation of a script starts: the global
    scope holds the variables added to the script, nothing else. *)
Definition initialState (s : Script) : CState :=
  {| scopes := {| inner := [];
                  global := (prepCompile (map_to_list (variables s))).1 |};
     constants := [];
     modules := ∅ |}.

(** [len := 3; a := len] *)
Definition src_shadow_len : Stmts :=
  stmts_of [AssignStmt 1 TokDefine "len" (IntLit 3);
            AssignStmt 10 TokDefine "a" (Ident 15 "len")].

(** [a := len] *)
Definition src_a_len : Stmts :=
  stmts_of [AssignStmt 1 TokDefine "a" (Ident 6 "len")].

(** [a := is_string()] *)
Definition src_is_string_noargs : Stmts :=
  stmts_of [AssignStmt 1 TokDefine "a" (CallExpr (Ident 6 "is_string") ENil)].

(** Modelled from the spec: a variable made from a host value, as [Add]
    makes it. *)
Definition NewVariable (name : string) (value : HostValue) : option ScriptVariable :=
  (λ v, {| varName := name; varValue := v |}) <$> FromInterface value.

(** Two host values hold an equal value when the table converts them to
    the same script value: the same datum for scalars (an int and an int64
    of the same number, a byte and a rune of the same code point), the
    same keys or length and pairwise equal elements for containers. *)
Definition sameValue (h1 h2 : HostValue) : Prop :=
  FromInterface h1 = FromInterface h2.

(** Nesting measures of containers, for induction over their elements. *)
Fixpoint hsize (h : HostValue) : nat :=
  match h with
  | HMap m => S (sum_list (snd <$> map_to_list (hsize <$> m)))
  | HSlice xs => S (sum_list (hsize <$> xs))
  | _ => 1
  end.

Fixpoint vsize (v : Value) : nat :=
  match v with
  | VMap m => S (sum_list (snd <$> map_to_list (vsize <$> m)))
  | VArray xs => S (sum_list (vsize <$> xs))
  | _ => 1
  end.

(** ** Proof tools *)

(** Decides a closed decidable proposition by evaluation. *)
Ltac by_compute :=
  match goal with
  | |- ?P => apply (bool_decide_unpack P); vm_compute; exact I
  end.

(** Evaluates both sides, leaving integer arithmetic on symbolic values
    alone. *)
Ltac evaluate := lazy -[wrap64 Z.add Z.sub Z.mul]; reflexivity.

(** ** Part I, results: the type-check builtins *)

Lemma index_one (a : Object) (k : Object → outcome) : index [a] 0 k = k a.
Proof. reflexivity. Qed.

Lemma length_one_inv (args : list Object) :
  length args = 1%nat → ∃ a, args = [a].
Proof.
  destruct args as [|a [|b rest]]; simpl; intros H; try discriminate.
  by exists a.
Qed.

Lemma typeAssert_ok (t : ObjectType) (x : Object) :
  (typeAssert t x).2 = bool_decide (dynType x = Some t).
Proof.
  destruct x as [|dyn p]; simpl; [done|].
  destruct (decide (dyn = t)) as [->|Hne]; simpl.
  - by rewrite bool_decide_eq_true_2.
  - rewrite bool_decide_eq_false_2; [done|]. intros [= ?]. contradiction.
Qed.

(** The shape shared by the twelve variant-testing builtins. *)
Lemma typeCheckFn_asserted (c : TypeCheck) (t : ObjectType) (a : Object) :
  assertedType c = Some t →
  typeCheckFn c [a] =
    Return (if bool_decide (dynType a = Some t) then TrueValue else FalseValue)
           nil_error.
Proof.
  intros Hc. rewrite <- typeAssert_ok.
  destruct c; simpl in Hc; inversion Hc; subst; cbn [typeCheckFn];
    match goal with |- ?f [a] = _ => unfold f end;
    cbn [length Nat.eqb negb]; rewrite index_one;
    by destruct (typeAssert _ a).2.
Qed.

Lemma builtinIsUndefined_one (a : Object) :
  builtinIsUndefined [a] =
    Return (if bool_decide (a = UndefinedValue) then TrueValue else FalseValue)
           nil_error.
Proof.
  unfold builtinIsUndefined, iface_eq. cbn [length Nat.eqb negb].
  rewrite index_one. by destruct (bool_decide (a = UndefinedValue)).
Qed.

(** C8. Each of the thirteen type-check builtins, called with an argument
    list whose length is not 1, returns the pair (nil,
    ErrWrongNumArguments): no object, the wrong-number-of-arguments
    error, and it does so by an ordinary return, not by a panic. *)
Theorem typeCheck_wrong_num_arguments (c : TypeCheck) (args : list Object) :
  length args ≠ 1%nat →
  typeCheckFn c args = Return NilObject ErrWrongNumArguments.
Proof.
  intros Hlen.
  assert (Hb : negb (length args =? 1)%nat = true).
  { apply negb_true_iff, Nat.eqb_neq, Hlen. }
  destruct c; cbn [typeCheckFn];
    match goal with |- ?f args = _ => unfold f end; by rewrite Hb.
Qed.

Lemma typeCheck_wrong_num_arguments_witness :
  typeCheckFn is_map [] = Return NilObject ErrWrongNumArguments
  ∧ typeCheckFn is_undefined [UndefinedValue; TrueValue]
    = Return NilObject ErrWrongNumArguments.
Proof.
  split.
  - apply (typeCheck_wrong_num_arguments is_map []). simpl. lia.
  - apply (typeCheck_wrong_num_arguments is_undefined
             [UndefinedValue; TrueValue]). simpl. lia.
Defined.

(** C9. Each type-check builtin, called with exactly one argument of any
    variant (the nil interface and typed nils included), returns a nil
    error, and its result is one of the two canonical booleans
    TrueValue and FalseValue, which are different objects. *)
Theorem typeCheck_one_argument_total (c : TypeCheck) (a : Object) :
  (∃ b : bool,
     typeCheckFn c [a] = Return (if b then TrueValue else FalseValue) nil_error)
  ∧ TrueValue ≠ FalseValue.
Proof.
  split; [|discriminate].
  destruct (assertedType c) as [t|] eqn:Hc.
  - eexists. by apply typeCheckFn_asserted.
  - destruct c; try discriminate. eexists. apply builtinIsUndefined_one.
Qed.

(** C10. is_undefined with one argument answers TrueValue exactly when the
    argument is the interface value UndefinedValue (same dynamic type and
    same pointer); any other pointer of the Undefined type gives
    FalseValue.  Each of the other twelve builtins answers by the dynamic
    type of its argument alone. *)
Theorem is_undefined_by_identity :
  (∀ a : Object,
     builtinIsUndefined [a] = Return TrueValue nil_error ↔ a = UndefinedValue)
  ∧ (∀ a : Object,
     a ≠ UndefinedValue → builtinIsUndefined [a] = Return FalseValue nil_error)
  ∧ (∀ p : N,
     Iface TUndefined p ≠ UndefinedValue →
     dynType (Iface TUndefined p) = dynType UndefinedValue
     ∧ builtinIsUndefined [Iface TUndefined p] = Return FalseValue nil_error)
  ∧ (∀ (c : TypeCheck) (t : ObjectType) (a : Object),
     assertedType c = Some t →
     (typeCheckFn c [a] = Return TrueValue nil_error ↔ dynType a = Some t)
     ∧ (typeCheckFn c [a] = Return FalseValue nil_error ↔ dynType a ≠ Some t)).
Proof.
  assert (Hne : ∀ a, a ≠ UndefinedValue →
                builtinIsUndefined [a] = Return FalseValue nil_error).
  { intros a Ha. rewrite builtinIsUndefined_one.
    by rewrite bool_decide_eq_false_2. }
  split; [|split; [exact Hne|split]].
  - intros a. rewrite builtinIsUndefined_one. split.
    + case_bool_decide; [done|discriminate].
    + intros ->. by rewrite bool_decide_eq_true_2.
  - intros p Hp. split; [done|]. by apply Hne.
  - intros c t a Hc. rewrite (typeCheckFn_asserted c t a Hc).
    case_bool_decide; split; split; try done; discriminate.
Qed.

Lemma is_undefined_by_identity_witness :
  builtinIsUndefined [Iface TUndefined 0] = Return FalseValue nil_error
  ∧ builtinIsUndefined [Iface TUndefined 7] = Return FalseValue nil_error
  ∧ typeCheckFn is_string [Iface TString 0] = Return TrueValue nil_error.
Proof.
  destruct is_undefined_by_identity as (_ & Hne & Hptr & Hdyn).
  split; [|split].
  - apply (Hne (Iface TUndefined 0)). discriminate.
  - apply (Hptr 7%N). discriminate.
  - apply (Hdyn is_string TString (Iface TString 0)); reflexivity.
Defined.

(** ** Part II, results: name resolution and the compiler *)

Lemma cbind_ok {A B} (m : M A) (k : A → M B) (st : CState) (r : B * CState) :
  cbind m k st = COk r →
  ∃ a st1, m st = COk (a, st1) ∧ k a st1 = COk r.
Proof.
  unfold cbind. destruct (m st) as [[a st1]|e|]; try discriminate.
  intros H. by exists a, st1.
Qed.

Lemma cbind_fuel {A B} (m : M A) (k : A → M B) (st : CState) :
  cbind m k st = CFuel →
  m st = CFuel ∨ ∃ a st1, m st = COk (a, st1) ∧ k a st1 = CFuel.
Proof.
  unfold cbind. destruct (m st) as [[a st1]|e|]; try discriminate.
  - intros H. right. by exists a, st1.
  - by left.
Qed.

Lemma cret_ok {A} (a : A) (st : CState) (r : A * CState) :
  cret a st = COk r → r = (a, st).
Proof. unfold cret. by intros [= <-]. Qed.

Lemma addConstant_ok (v : Value) (st : CState) (r : nat * CState) :
  addConstant v st = COk r → scopes r.2 = scopes st ∧ modules r.2 = modules st.
Proof.
  unfold addConstant. destruct (addConstantTo v (constants st)) as [i pool].
  by intros [= <-].
Qed.

Lemma addConstant_not_fuel (v : Value) (st : CState) : addConstant v st ≠ CFuel.
Proof.
  unfold addConstant. by destruct (addConstantTo v (constants st)).
Qed.

(** *** The symbol table keeps an unbound name unbound *)

Lemma resolveIn_unbound (n : string) (tables : list SymbolTable) (g : SymbolTable) :
  store g !! n = None →
  Forall (λ t, store t !! n = None) tables →
  resolveIn n tables g = None.
Proof.
  intros Hg. induction 1 as [|t outer Ht _ IH]; simpl.
  - by rewrite Hg.
  - by rewrite Ht, IH.
Qed.

Lemma resolveIn_preserves (n x : string) (tables tables' : list SymbolTable)
    (g : SymbolTable) (s : Symbol) :
  x ≠ n →
  resolveIn x tables g = Some (s, tables') →
  Forall (λ t, store t !! n = None) tables →
  Forall (λ t, store t !! n = None) tables'.
Proof.
  intros Hx. revert tables' s.
  induction tables as [|t outer IH]; intros tables' s; simpl.
  - destruct (store g !! x); intros [= _ <-] _; constructor.
  - destruct (store t !! x) as [s0|].
    + by intros [= _ <-].
    + destruct (resolveIn x outer g) as [[s1 outer']|] eqn:Hr; [|discriminate].
      intros Hres Hall. inversion Hall as [|? ? Ht Houter]; subst.
      specialize (IH _ _ eq_refl Houter).
      destruct (Scope s1); injection Hres as <- <-; constructor; try done.
      all: simpl; by rewrite lookup_insert_ne.
Qed.

Lemma resolve_unbound (n : string) (sc : Scopes) :
  unbound n sc → resolve n sc = None.
Proof.
  intros [Hg Hin]. unfold resolve. by rewrite resolveIn_unbound.
Qed.

Lemma resolve_preserves (n x : string) (sc sc' : Scopes) (s : Symbol) :
  resolve x sc = Some (s, sc') → unbound n sc → unbound n sc'.
Proof.
  intros Hres Hun. destruct (decide (x = n)) as [->|Hx].
  { by rewrite resolve_unbound in Hres. }
  unfold resolve in Hres. destruct Hun as [Hg Hin].
  destruct (resolveIn x (inner sc) (global sc)) as [[s0 tables]|] eqn:Hr;
    [|discriminate].
  injection Hres as <- <-. split; simpl; [done|].
  by eapply resolveIn_preserves.
Qed.

Lemma define_preserves (n x : string) (sc : Scopes) :
  x ≠ n → unbound n sc → unbound n (define x sc).2.
Proof.
  intros Hx [Hg Hin]. unfold define.
  destruct (inner sc) as [|t outer] eqn:Hsc.
  - unfold defineGlobal. destruct (store (global sc) !! x) eqn:Hl; simpl.
    + split; simpl; [done|constructor].
    + split; simpl; [by rewrite lookup_insert_ne|constructor].
  - simpl. inversion Hin as [|? ? Ht Houter]; subst. split; simpl; [done|].
    constructor; [|done]. simpl. by rewrite lookup_insert_ne.
Qed.

Lemma enterScope_preserves (n : string) (params : list string) (sc : Scopes) :
  n ∉ params → unbound n sc → unbound n (enterScope params sc).
Proof.
  intros Hn [Hg Hin]. unfold enterScope.
  assert (Hstart : unbound n {| inner := NewSymbolTable :: inner sc;
                                global := global sc |}).
  { split; simpl; [done|]. constructor; [|done]. apply lookup_empty. }
  revert Hstart. generalize {| inner := NewSymbolTable :: inner sc;
                               global := global sc |}.
  induction params as [|p params IH]; intros sc0 Hsc0; simpl; [done|].
  apply IH.
  - intros Hin'. apply Hn. by right.
  - apply define_preserves; [|done]. intros ->. apply Hn. by left.
Qed.

(** *** Compilation, step by step in the state *)

Section compile_facts.
Variable cfg : Config.
Variable imp : Importer.
Variable n : string.

Lemma keeps_ret {A} (a : A) : keeps n (cret a).
Proof. intros st r Hr Hun. apply cret_ok in Hr as ->. done. Qed.

Lemma keeps_bind {A B} (m : M A) (k : A → M B) :
  keeps n m → (∀ a, keeps n (k a)) → keeps n (cbind m k).
Proof.
  intros Hm Hk st r Hr Hun.
  apply cbind_ok in Hr as (a & st1 & Hm1 & Hk1).
  eapply Hk; [exact Hk1|]. exact (Hm _ _ Hm1 Hun).
Qed.

Lemma keeps_addConstant (v : Value) : keeps n (addConstant v).
Proof.
  intros st r Hr Hun. apply addConstant_ok in Hr as [-> _]. done.
Qed.

Lemma keeps_compileIdent (pos : Pos) (x : string) : keeps n (compileIdent cfg pos x).
Proof.
  intros st r Hr Hun. unfold compileIdent in Hr.
  destruct (resolve x (scopes st)) as [[s sc]|] eqn:Hres.
  - injection Hr as <-. simpl. by eapply resolve_preserves.
  - destruct (indexOf x (builtinNames cfg) 0); [|discriminate].
    destruct (decide (x ∈ disabledBuiltins cfg)); [discriminate|].
    by injection Hr as <-.
Qed.

Lemma keeps_compileImport (pos : Pos) (x : string) : keeps n (compileImport cfg imp pos x).
Proof.
  intros st r Hr Hun. unfold compileImport in Hr.
  destruct (decide _); [discriminate|].
  destruct (imp pos x (constants st) (modules st)) as [[[code pool] mods]|e|];
    try discriminate.
  by injection Hr as <-.
Qed.

Lemma keeps_leaveScope (np : nat) (va : bool) (code : list Instr) (st : CState)
    (r : list Instr * CState) :
  leaveScope np va code st = COk r →
  unbound n (scopes st) → unbound n (scopes r.2).
Proof.
  unfold leaveScope. intros Hr [Hg Hin].
  destruct (inner (scopes st)) as [|t outer] eqn:Hsc.
  - injection Hr as <-. split; simpl; [done|]. rewrite Hsc. constructor.
  - apply cbind_ok in Hr as (i & st1 & Hc & Hret).
    apply cret_ok in Hret as ->. apply addConstant_ok in Hc as [Hc _].
    simpl in *. rewrite Hc. split; simpl; [done|].
    by inversion Hin.
Qed.

Lemma compile_keeps :
  (∀ e, n ∉ boundOfExpr e → keeps n (compileExpr cfg imp e))
  ∧ (∀ es, n ∉ boundOfExprs es → keeps n (compileExprs cfg imp es))
  ∧ (∀ s, n ∉ boundOfStmt s → keeps n (compileStmt cfg imp s))
  ∧ (∀ ss, n ∉ boundOfStmts ss → keeps n (compileStmts cfg imp ss)).
Proof.
  apply ast_mutind; simpl; intros.
  all: repeat match goal with
       | H : _ ∉ _ ++ _ |- _ => apply not_elem_of_app in H as [? ?]
       | H : _ ∉ _ :: _ |- _ => apply not_elem_of_cons in H as [? ?]
       end.
  all: try (repeat first
         [ apply keeps_ret | apply keeps_addConstant | apply keeps_compileIdent
         | apply keeps_compileImport
         | apply keeps_bind; [|intros ?] | solve [auto] ]; fail).
  - (* FuncLit *)
    destruct (firstDuplicate params); [by intros st r Hr|].
    intros st r Hr Hun.
    apply cbind_ok in Hr as (code & st1 & Hbody & Hleave).
    eapply keeps_leaveScope; [exact Hleave|].
    refine (H H1 _ (code, st1) Hbody _). simpl.
    by apply enterScope_preserves.
  - (* AssignStmt *)
    destruct tok.
    + apply not_elem_of_cons in H0 as [Hlhs Hrhs].
      intros st r Hr Hun.
      destruct (define lhs (scopes st)) as [sym sc] eqn:Hdef.
      apply cbind_ok in Hr as (c & st1 & Hc & Hret).
      apply cret_ok in Hret as ->. simpl.
      refine (H Hrhs _ (c, st1) Hc _). simpl.
      replace sc with (define lhs (scopes st)).2 by (by rewrite Hdef).
      apply define_preserves; [|done]. by intros ->.
    + intros st r Hr Hun.
      destruct (resolve lhs (scopes st)) as [[sym sc]|] eqn:Hres; [|discriminate].
      apply cbind_ok in Hr as (c & st1 & Hc & Hret).
      apply cret_ok in Hret as ->. simpl.
      refine (H H0 _ (c, st1) Hc _). simpl. by eapply resolve_preserves.
Qed.

Lemma fails_bind_l {A B} (m : M A) (k : A → M B) : fails n m → fails n (cbind m k).
Proof.
  intros Hm st r Hun Hr. apply cbind_ok in Hr as (a & st1 & Hm1 & _).
  by eapply Hm.
Qed.

Lemma fails_bind_r {A B} (m : M A) (k : A → M B) :
  keeps n m → (∀ a, fails n (k a)) → fails n (cbind m k).
Proof.
  intros Hm Hk st r Hun Hr. apply cbind_ok in Hr as (a & st1 & Hm1 & Hk1).
  eapply Hk; [|exact Hk1]. exact (Hm _ _ Hm1 Hun).
Qed.

(** An identifier that no scope binds and that is not an enabled
    builtin does not compile. *)
Lemma fails_compileIdent (pos : Pos) :
  indexOf n (builtinNames cfg) 0 = None ∨ n ∈ disabledBuiltins cfg →
  fails n (compileIdent cfg pos n).
Proof.
  intros Hb st r Hun. unfold compileIdent.
  rewrite (resolve_unbound _ _ Hun).
  destruct (indexOf n (builtinNames cfg) 0) eqn:Hi; [|done].
  destruct Hb as [?|Hd]; [done|]. by rewrite decide_True.
Qed.

Lemma compile_fails :
  indexOf n (builtinNames cfg) 0 = None ∨ n ∈ disabledBuiltins cfg →
  (∀ e, n ∉ boundOfExpr e → n ∈ identsOfExpr e → fails n (compileExpr cfg imp e))
  ∧ (∀ es, n ∉ boundOfExprs es → n ∈ identsOfExprs es →
       fails n (compileExprs cfg imp es))
  ∧ (∀ s, n ∉ boundOfStmt s → n ∈ identsOfStmt s → fails n (compileStmt cfg imp s))
  ∧ (∀ ss, n ∉ boundOfStmts ss → n ∈ identsOfStmts ss →
       fails n (compileStmts cfg imp ss)).
Proof.
  intros Hb. destruct compile_keeps as (KE & KEs & KS & KSs).
  apply ast_mutind; simpl; intros.
  all: repeat match goal with
       | H : _ ∈ [] |- _ => by apply elem_of_nil in H
       | H : _ ∉ _ ++ _ |- _ => apply not_elem_of_app in H as [? ?]
       | H : _ ∈ _ ++ _ |- _ => apply elem_of_app in H as [?|?]
       end.
  all: try (first
         [ apply fails_bind_l; solve [auto]
         | apply fails_bind_r; [solve [auto]|intros ?]; apply fails_bind_l; solve [auto]
         ]; fail).
  - (* Ident *)
    apply list_elem_of_singleton in H0 as <-. by apply fails_compileIdent.
  - (* FuncLit *)
    destruct (firstDuplicate params); [by intros st r _|].
    intros st r Hun Hr.
    apply cbind_ok in Hr as (code & st1 & Hbody & _).
    refine (H H2 H1 _ (code, st1) _ Hbody). simpl.
    by apply enterScope_preserves.
  - (* AssignStmt *)
    destruct tok.
    + apply not_elem_of_cons in H0 as [Hlhs Hrhs].
      intros st r Hun Hr.
      destruct (define lhs (scopes st)) as [sym sc] eqn:Hdef.
      apply cbind_ok in Hr as (c & st1 & Hc & _).
      refine (H Hrhs H1 _ (c, st1) _ Hc). simpl.
      replace sc with (define lhs (scopes st)).2 by (by rewrite Hdef).
      apply define_preserves; [|done]. by intros ->.
    + intros st r Hun Hr.
      apply elem_of_cons in H1 as [<-|Hrhs].
      { by rewrite (resolve_unbound _ _ Hun) in Hr. }
      destruct (resolve lhs (scopes st)) as [[sym sc]|] eqn:Hres; [|discriminate].
      apply cbind_ok in Hr as (c & st1 & Hc & _).
      refine (H H0 Hrhs _ (c, st1) _ Hc). simpl. by eapply resolve_preserves.
Qed.

End compile_facts.

(** *** Imports of disabled modules *)

Section import_facts.
Variable cfg : Config.
Variable imp : Importer.


Lemma neverOk_bind_l {A B} (m : M A) (k : A → M B) : neverOk m → neverOk (cbind m k).
Proof.
  intros Hm st r Hr. apply cbind_ok in Hr as (a & st1 & Hm1 & _).
  by eapply Hm.
Qed.

Lemma neverOk_bind_r {A B} (m : M A) (k : A → M B) :
  (∀ a, neverOk (k a)) → neverOk (cbind m k).
Proof.
  intros Hk st r Hr. apply cbind_ok in Hr as (a & st1 & _ & Hk1).
  by eapply Hk.
Qed.

Lemma compile_disabled_import (m : string) :
  m ∈ disabledModules cfg →
  (∀ e, m ∈ importsOfExpr e → neverOk (compileExpr cfg imp e))
  ∧ (∀ es, m ∈ importsOfExprs es → neverOk (compileExprs cfg imp es))
  ∧ (∀ s, m ∈ importsOfStmt s → neverOk (compileStmt cfg imp s))
  ∧ (∀ ss, m ∈ importsOfStmts ss → neverOk (compileStmts cfg imp ss)).
Proof.
  intros Hm.
  apply ast_mutind; simpl; intros.
  all: repeat match goal with
       | H : _ ∈ [] |- _ => by apply elem_of_nil in H
       | H : _ ∈ _ ++ _ |- _ => apply elem_of_app in H as [?|?]
       end.
  all: try (first
         [ apply neverOk_bind_l; solve [auto]
         | apply neverOk_bind_r; intros ?; apply neverOk_bind_l; solve [auto]
         ]; fail).
  - (* FuncLit *)
    destruct (firstDuplicate params); [by intros st r|].
    intros st r Hr. apply cbind_ok in Hr as (code & st1 & Hbody & _).
    by eapply H.
  - (* ImportExpr *)
    apply list_elem_of_singleton in H as <-. intros st r.
    unfold compileImport. rewrite decide_True; [done|by left].
  - (* AssignStmt *)
    intros st r Hr. destruct tok.
    + destruct (define lhs (scopes st)) as [sym sc].
      apply cbind_ok in Hr as (c & st1 & Hc & _). by eapply H.
    + destruct (resolve lhs (scopes st)) as [[sym sc]|]; [|discriminate].
      apply cbind_ok in Hr as (c & st1 & Hc & _). by eapply H.
Qed.

(** *** No import reaches the resolver: the depth bound plays no part *)

Lemma noFuel_ret {A} (a : A) : noFuel (cret a).
Proof. by intros st. Qed.

Lemma noFuel_bind {A B} (m : M A) (k : A → M B) :
  noFuel m → (∀ a, noFuel (k a)) → noFuel (cbind m k).
Proof.
  intros Hm Hk st Hr. apply cbind_fuel in Hr as [Hr|(a & st1 & _ & Hr)].
  - by eapply Hm.
  - by eapply Hk.
Qed.

Lemma noFuel_compileIdent (pos : Pos) (x : string) : noFuel (compileIdent cfg pos x).
Proof.
  intros st. unfold compileIdent.
  destruct (resolve x (scopes st)) as [[s sc]|]; [done|].
  destruct (indexOf x (builtinNames cfg) 0); [|done].
  by destruct (decide (x ∈ disabledBuiltins cfg)).
Qed.

Lemma noFuel_leaveScope (np : nat) (va : bool) (code : list Instr) :
  noFuel (leaveScope np va code).
Proof.
  intros st. unfold leaveScope. destruct (inner (scopes st)); [done|].
  refine (noFuel_bind _ _ (addConstant_not_fuel _) _ _).
  intros ?. apply noFuel_ret.
Qed.

Lemma compile_noFuel :
  (∀ e, importsDisabled cfg (importsOfExpr e) → noFuel (compileExpr cfg imp e))
  ∧ (∀ es, importsDisabled cfg (importsOfExprs es) →
       noFuel (compileExprs cfg imp es))
  ∧ (∀ s, importsDisabled cfg (importsOfStmt s) → noFuel (compileStmt cfg imp s))
  ∧ (∀ ss, importsDisabled cfg (importsOfStmts ss) →
       noFuel (compileStmts cfg imp ss)).
Proof.
  unfold importsDisabled.
  apply ast_mutind; simpl; intros.
  all: repeat match goal with
       | H : Forall _ (_ ++ _) |- _ => apply Forall_app in H as [? ?]
       end.
  all: try (repeat first
         [ apply noFuel_ret | exact (addConstant_not_fuel _)
         | apply noFuel_compileIdent
         | apply noFuel_bind; [|intros ?] | solve [auto] ]; fail).
  - (* FuncLit *)
    destruct (firstDuplicate params); [by intros st|].
    intros st.
    refine (noFuel_bind _ _ (H H0) _ _). intros ?. apply noFuel_leaveScope.
  - (* ImportExpr *)
    intros st. unfold compileImport.
    apply Forall_cons in H as [Hd _]. by rewrite decide_True.
  - (* AssignStmt *)
    intros st. destruct tok.
    + destruct (define lhs (scopes st)) as [sym sc].
      refine (noFuel_bind _ _ (H H0) _ _). intros ?. apply noFuel_ret.
    + destruct (resolve lhs (scopes st)) as [[sym sc]|]; [|done].
      refine (noFuel_bind _ _ (H H0) _ _). intros ?. apply noFuel_ret.
Qed.
End import_facts.

(** *** The facade: what the compiler is started with *)

Lemma Compile_unfold (depth : nat) (s : Script) :
  Compile depth s =
  match compileStmts (scriptConfig s) (resolveModule (scriptConfig s) (scriptResolver s) depth)
          (input s) (initialState s) with
  | COk (code, st) =>
      let g := global (scopes st) in
      let bc := {| MainFunction := {| Instructions := code; NumLocals := 0;
                                      NumParameters := 0; VarArgs := false;
                                      ModuleName := None |};
                   Constants := constants st;
                   NumGlobals := numDefinition g |} in
      COk {| symbolTable := g; bytecode := bc;
             globals := padGlobals (NumGlobals bc)
                          (prepCompile (map_to_list (variables s))).2 |}
  | CErr e => CErr e
  | CFuel => CFuel
  end.
Proof.
  unfold Compile, compileProgram, initialState.
  destruct (prepCompile (map_to_list (variables s))) as [symbols gs]. simpl.
  by destruct (compileStmts _ _ _ _) as [[code st]|e|].
Qed.

Lemma prepCompile_store (vars : list (string * Value)) (t : SymbolTable)
    (gs : list Value) (n : string) :
  store (foldl (λ acc nv,
                  let '(s, t) := defineGlobal nv.1 acc.1 in
                  (t, <[Index s := nv.2]> (acc.2 ++ [VUndefined])))
               (t, gs) vars).1 !! n = None
  ↔ store t !! n = None ∧ n ∉ vars.*1.
Proof.
  revert t gs. induction vars as [|[x v] vars IH]; intros t gs; simpl.
  - split; [intros H; split; [done|apply not_elem_of_nil]|by intros [? _]].
  - unfold defineGlobal at 2. simpl.
    destruct (store t !! x) as [s0|] eqn:Hx; rewrite IH; simpl.
    + rewrite not_elem_of_cons. split.
      * intros [Ht Hn]. split; [done|]. split; [|done]. intros ->. congruence.
      * by intros [Ht [_ Hn]].
    + rewrite not_elem_of_cons. split.
      * intros [Ht Hn]. destruct (decide (x = n)) as [->|Hne].
        -- by rewrite lookup_insert_eq in Ht.
        -- rewrite lookup_insert_ne in Ht by done. split; [done|].
           split; [by intros ->|done].
      * intros [Ht [Hne Hn]]. split; [|done].
        rewrite lookup_insert_ne; [done|]. by intros ->.
Qed.

(** A name is unbound when compilation starts exactly when no variable of
    that name was added to the script. *)
Lemma initialState_unbound (s : Script) (n : string) :
  variables s !! n = None → unbound n (scopes (initialState s)).
Proof.
  intros Hv. split; simpl; [|constructor].
  unfold prepCompile. apply prepCompile_store. split; [apply lookup_empty|].
  intros Hin. apply list_elem_of_fmap in Hin as ([x v] & -> & Hin).
  apply elem_of_map_to_list in Hin. simpl in Hv. congruence.
Qed.

Lemma indexOf_None (name : string) (names : list string) (i : nat) :
  name ∉ names → indexOf name names i = None.
Proof.
  revert i. induction names as [|x names IH]; intros i Hn; simpl; [done|].
  apply not_elem_of_cons in Hn as [Hx Hn].
  rewrite decide_False by (by intros ->). by apply IH.
Qed.

(** A script that refers to a name it does not bind, when no variable of
    that name was added and the name is not an enabled builtin, does not
    compile; and when none of its imports reaches the resolver, what it
    gets is a compile error. *)
Lemma Compile_unbound_reference (depth : nat) (s : Script) (n : string) :
  n ∉ (fst <$> Builtins) ∨ n ∈ removedBuiltins s →
  n ∈ identsOfStmts (input s) →
  n ∉ boundOfStmts (input s) →
  variables s !! n = None →
  (∀ c, Compile depth s ≠ COk c)
  ∧ (importsDisabled (scriptConfig s) (importsOfStmts (input s)) →
     ∃ e, Compile depth s = CErr e).
Proof.
  intros Hb Hid Hbd Hv.
  assert (Hb' : indexOf n (builtinNames (scriptConfig s)) 0 = None
                ∨ n ∈ disabledBuiltins (scriptConfig s)).
  { destruct Hb as [Hb|Hb]; [left; by apply indexOf_None|by right]. }
  pose proof (compile_fails (scriptConfig s)
                (resolveModule (scriptConfig s) (scriptResolver s) depth) n Hb')
    as (_ & _ & _ & Hfail).
  specialize (Hfail (input s) Hbd Hid (initialState s)).
  assert (Hnok : ∀ c, Compile depth s ≠ COk c).
  { intros c. rewrite Compile_unfold.
    destruct (compileStmts _ _ _ _) as [[code st]|e|] eqn:Hc; try done.
    intros _. exact (Hfail _ (initialState_unbound _ _ Hv) eq_refl). }
  split; [exact Hnok|].
  intros Himp.
  pose proof (compile_noFuel (scriptConfig s)
                (resolveModule (scriptConfig s) (scriptResolver s) depth))
    as (_ & _ & _ & Hnf).
  specialize (Hnf (input s) Himp (initialState s)).
  destruct (Compile depth s) as [c|e|] eqn:HC.
  - by destruct (Hnok c).
  - by exists e.
  - rewrite Compile_unfold in HC.
    destruct (compileStmts _ _ _ _) as [[code st]|e|]; try done.
Qed.

(** A name that is neither in the cache nor a script module nor a
    standard module is resolved by the user module loader. *)
Lemma resolveModule_user (cfg : Config) (res : Resolver) (depth : nat) (pos : Pos)
    (name : string) (pool : list Value) (mods : gmap string ModuleState) :
  mods !! name = None →
  scriptModules res !! name = None →
  stdModules res !! name = None →
  resolveModule cfg res (S depth) pos name pool mods
  = match userModuleLoader res name with
    | Some src => compileModule cfg (resolveModule cfg res depth) name src pool mods
    | None => CErr (ModuleNotFound name pos)
    end.
Proof. intros H1 H2 H3. simpl. by rewrite H1, H2, H3. Qed.

Lemma Compile_disabled_import (depth : nat) (s : Script) (m : string) :
  m ∈ removedStdModules s →
  m ∈ importsOfStmts (input s) →
  (∀ c, Compile depth s ≠ COk c)
  ∧ (importsDisabled (scriptConfig s) (importsOfStmts (input s)) →
     ∃ e, Compile depth s = CErr e).
Proof.
  intros Hm Hin.
  pose proof (compile_disabled_import (scriptConfig s)
                (resolveModule (scriptConfig s) (scriptResolver s) depth) m Hm)
    as (_ & _ & _ & Hfail).
  specialize (Hfail (input s) Hin (initialState s)).
  assert (Hnok : ∀ c, Compile depth s ≠ COk c).
  { intros c. rewrite Compile_unfold.
    destruct (compileStmts _ _ _ _) as [[code st]|e|] eqn:Hc; try done.
    intros _. exact (Hfail _ eq_refl). }
  split; [exact Hnok|].
  intros Himp.
  pose proof (compile_noFuel (scriptConfig s)
                (resolveModule (scriptConfig s) (scriptResolver s) depth))
    as (_ & _ & _ & Hnf).
  specialize (Hnf (input s) Himp (initialState s)).
  destruct (Compile depth s) as [c|e|] eqn:HC.
  - by destruct (Hnok c).
  - by exists e.
  - rewrite Compile_unfold in HC.
    destruct (compileStmts _ _ _ _) as [[code st]|e|]; try done.
Qed.

(** A script that opens with [lhs := name], where [name] is unbound and
    not a builtin, stops at that identifier. *)
Lemma Compile_first_reference (depth : nat) (s : Script) (name lhs : string)
    (pos p : Pos) (rest : Stmts) :
  name ∉ (fst <$> Builtins) →
  variables s !! name = None →
  lhs ≠ name →
  input s = SCons (AssignStmt pos TokDefine lhs (Ident p name)) rest →
  Compile depth s = CErr (UndefinedIdentifier name p).
Proof.
  intros Hb Hv Hlhs Hin. rewrite Compile_unfold, Hin.
  cbn [compileStmts compileStmt compileExpr]. unfold cbind at 1.
  destruct (define lhs (scopes (initialState s))) as [sym sc] eqn:Hdef.
  unfold cbind at 1. unfold compileIdent.
  assert (Hun : unbound name sc).
  { replace sc with (define lhs (scopes (initialState s))).2 by (by rewrite Hdef).
    apply define_preserves; [done|]. by apply initialState_unbound. }
  cbn [scopes setScopes]. rewrite (resolve_unbound _ _ Hun).
  cbn [builtinNames scriptConfig]. by rewrite indexOf_None.
Qed.









(** *** Running the compiled scripts of the tests *)

(** C1. The script [a := b + 20] is compiled once with the global [b]
    bound to a host integer [x]; running the bytecode gives [a] the
    (64-bit) sum of [x] and 20; after [Set] replaces [b] by [y], running
    the same bytecode again gives [a] the sum of [y] and 20.  Neither the
    run nor [Set] touches the bytecode or the slot index of any name, and
    the array of global slots keeps its size.  With [x = 10] and [y = 20]
    the two values of [a] are 30 and 40. *)
Theorem rerun_after_set (x y : Z) (depth fuel : nat) :
  (5 ≤ fuel)%nat →
  ∃ s c c1 c2 c3,
    Add "b" (HInt x) (New src_a_b_plus_20) = Some s
    ∧ Compile depth s = COk c
    ∧ Compiled_Run fuel c = RunOk c1
    ∧ Variable_Int (Compiled_Get "a" c1) = wrap64 (x + 20)
    ∧ Compiled_Set "b" (HInt y) c1 = Some c2
    ∧ Compiled_Run fuel c2 = RunOk c3
    ∧ Variable_Int (Compiled_Get "a" c3) = wrap64 (y + 20)
    ∧ Variable_Int (Compiled_Get "b" c3) = y
    ∧ bytecode c3 = bytecode c
    ∧ length (globals c3) = NumGlobals (bytecode c)
    ∧ ∀ name, slotOf name c3 = slotOf name c.
Proof.
  intros Hfuel. do 5 (destruct fuel as [|fuel]; [lia|]). clear Hfuel.
  do 5 eexists.
  split; [reflexivity|].
  split; [vm_compute; reflexivity|].
  repeat (split; [evaluate|]).
  intros name. reflexivity.
Qed.

Lemma rerun_after_set_witness :
  ∃ s c c1 c2 c3,
    Add "b" (HInt 10) (New src_a_b_plus_20) = Some s
    ∧ Compile 0 s = COk c
    ∧ Compiled_Run 5 c = RunOk c1
    ∧ Variable_Int (Compiled_Get "a" c1) = 30
    ∧ Compiled_Set "b" (HInt 20) c1 = Some c2
    ∧ Compiled_Run 5 c2 = RunOk c3
    ∧ Variable_Int (Compiled_Get "a" c3) = 40
    ∧ Variable_Int (Compiled_Get "b" c3) = 20
    ∧ bytecode c3 = bytecode c
    ∧ length (globals c3) = NumGlobals (bytecode c)
    ∧ ∀ name, slotOf name c3 = slotOf name c.
Proof.
  apply (rerun_after_set 10 20 0 5). lia.
Defined.

(** C4. Adding the name [b] twice before compilation leaves the script
    as if only the last value had been added, with no error; compiling and
    running [a := b] then gives both [a] and [b] the last value.  With 5
    and then the string foo, both read foo. *)
Theorem add_twice_uses_last (h1 h2 : HostValue) (v1 v2 : Value) (depth fuel : nat) :
  FromInterface h1 = Some v1 →
  FromInterface h2 = Some v2 →
  (3 ≤ fuel)%nat →
  ∃ s1 s2 c c',
    Add "b" h1 (New src_a_b) = Some s1
    ∧ Add "b" h2 s1 = Some s2
    ∧ Add "b" h2 (New src_a_b) = Some s2
    ∧ Compile depth s2 = COk c
    ∧ Compiled_Run fuel c = RunOk c'
    ∧ varValue (Compiled_Get "a" c') = v2
    ∧ varValue (Compiled_Get "b" c') = v2.
Proof.
  intros H1 H2 Hfuel. do 3 (destruct fuel as [|fuel]; [lia|]). clear Hfuel.
  unfold Add. rewrite H1, H2. cbn [variables New].
  do 4 eexists.
  split; [reflexivity|].
  split; [reflexivity|].
  split; [f_equal; f_equal; apply insert_insert_eq|].
  split; [vm_compute; reflexivity|].
  split; vm_compute; [reflexivity|]. split; reflexivity.
Qed.

Lemma add_twice_uses_last_witness :
  ∃ s1 s2 c c',
    Add "b" (HInt 5) (New src_a_b) = Some s1
    ∧ Add "b" (HString "foo") s1 = Some s2
    ∧ Add "b" (HString "foo") (New src_a_b) = Some s2
    ∧ Compile 0 s2 = COk c
    ∧ Compiled_Run 3 c = RunOk c'
    ∧ Variable_Value (Compiled_Get "a" c') = HString "foo"
    ∧ Variable_Value (Compiled_Get "b" c') = HString "foo".
Proof.
  destruct (add_twice_uses_last (HInt 5) (HString "foo") (VInt 5) (VString "foo")
              0 3 eq_refl eq_refl) as (s1 & s2 & c & c' & H1 & H2 & H3 & H4 & H5 & Ha & Hb).
  - lia.
  - exists s1, s2, c, c'. unfold Variable_Value. rewrite Ha, Hb. done.
Defined.

(** C6. With a user module loader installed, the script
    [math := import("mod1"); a := math.foo()] fails to compile with the
    module-not-found error when the loader does not know [mod1]; when the
    loader answers [mod1] with the source [foo := func() { return 5 }], the
    script compiles and runs, and the call of the imported [foo] gives
    [a] the value 5. *)
Theorem user_module_loader (loader : ModuleLoader) (depth fuel : nat) :
  (1 ≤ depth)%nat →
  (17 ≤ fuel)%nat →
  (loader "mod1" = None →
   Compile depth (SetUserModuleLoader loader (New src_mod1_main))
   = CErr (ModuleNotFound "mod1" 9))
  ∧ (loader "mod1" = Some src_mod1 →
     ∃ c c',
       Compile depth (SetUserModuleLoader loader (New src_mod1_main)) = COk c
       ∧ Compiled_Run fuel c = RunOk c'
       ∧ Variable_Int (Compiled_Get "a" c') = 5).
Proof.
  intros Hdepth Hfuel. destruct depth as [|depth]; [lia|].
  do 17 (destruct fuel as [|fuel]; [lia|]). clear Hdepth Hfuel.
  set (s := SetUserModuleLoader loader (New src_mod1_main)).
  assert (Hres : resolveModule (scriptConfig s) (scriptResolver s) (S depth)
                   9 "mod1" [] ∅
                 = match loader "mod1" with
                   | Some src =>
                       compileModule (scriptConfig s)
                         (resolveModule (scriptConfig s) (scriptResolver s) depth)
                         "mod1" src [] ∅
                   | None => CErr (ModuleNotFound "mod1" 9)
                   end).
  { apply resolveModule_user; reflexivity. }
  split; intros Hl; rewrite Hl in Hres.
  - rewrite Compile_unfold.
    revert Hres. generalize (resolveModule (scriptConfig s) (scriptResolver s) (S depth)).
    intros imp Himp. vm_compute in Himp. vm_compute. rewrite Himp. reflexivity.
  - assert (Hmod : ∃ r, compileModule (scriptConfig s)
                          (resolveModule (scriptConfig s) (scriptResolver s) depth)
                          "mod1" src_mod1 [] ∅ = COk r).
    { eexists. vm_compute. reflexivity. }
    destruct Hmod as [r Hmod]. rewrite Hmod in Hres.
    vm_compute in Hmod. injection Hmod as <-.
    do 2 eexists. split.
    + rewrite Compile_unfold.
      revert Hres.
      generalize (resolveModule (scriptConfig s) (scriptResolver s) (S depth)).
      intros imp Himp. vm_compute in Himp. vm_compute. rewrite Himp.
      vm_compute. reflexivity.
    + split; vm_compute; reflexivity.
Qed.

Lemma user_module_loader_witness :
  Compile 1 (SetUserModuleLoader (λ _, None) (New src_mod1_main))
  = CErr (ModuleNotFound "mod1" 9)
  ∧ ∃ c c',
      Compile 1 (SetUserModuleLoader testLoader (New src_mod1_main)) = COk c
      ∧ Compiled_Run 17 c = RunOk c'
      ∧ Variable_Int (Compiled_Get "a" c') = 5.
Proof.
  split.
  - apply (user_module_loader (λ _, None) 1 17); [lia|lia|reflexivity].
  - apply (user_module_loader testLoader 1 17); [lia|lia|reflexivity].
Defined.

(** A type check called with no argument, seen from a script: the run
    goes on, and the variable holds an Error value. *)
Example type_check_misuse_in_script :
  ∃ c c', Compile 0 (New src_is_string_noargs) = COk c
          ∧ Compiled_Run 4 c = RunOk c'
          ∧ varValue (Compiled_Get "a" c')
            = VError (VString "wrong number of arguments").
Proof.
  do 2 eexists. split; [vm_compute; reflexivity|].
  split; vm_compute; reflexivity.
Qed.

(** *** Host values: conversion and typed accessors *)

Lemma sum_list_lookup (m : gmap string nat) (k : string) (x : nat) :
  m !! k = Some x → (x ≤ sum_list (snd <$> map_to_list m))%nat.
Proof.
  intros Hk. apply (sum_list_with_in x id).
  apply list_elem_of_fmap. exists (k, x). split; [done|].
  by apply elem_of_map_to_list.
Qed.

Lemma hsize_lookup (m : gmap string HostValue) (k : string) (x : HostValue) :
  m !! k = Some x → (hsize x < hsize (HMap m))%nat.
Proof.
  intros Hk. simpl. apply Nat.lt_succ_r.
  apply (sum_list_lookup _ k). by rewrite lookup_fmap, Hk.
Qed.

Lemma hsize_elem (xs : list HostValue) (x : HostValue) :
  x ∈ xs → (hsize x < hsize (HSlice xs))%nat.
Proof.
  intros Hx. simpl. apply Nat.lt_succ_r.
  apply (sum_list_with_in (hsize x) id). by apply list_elem_of_fmap_2.
Qed.

Lemma vsize_lookup (m : gmap string Value) (k : string) (x : Value) :
  m !! k = Some x → (vsize x < vsize (VMap m))%nat.
Proof.
  intros Hk. simpl. apply Nat.lt_succ_r.
  apply (sum_list_lookup _ k). by rewrite lookup_fmap, Hk.
Qed.

Lemma vsize_elem (xs : list Value) (x : Value) :
  x ∈ xs → (vsize x < vsize (VArray xs))%nat.
Proof.
  intros Hx. simpl. apply Nat.lt_succ_r.
  apply (sum_list_with_in (vsize x) id). by apply list_elem_of_fmap_2.
Qed.

(** Element-wise conversion of a map, given what it does on each element. *)
Lemma allSome_fmap {A B} (f : A → option B) (g : A → B) (m : gmap string A) :
  (∀ k x, m !! k = Some x → f x = Some (g x)) →
  allSome (f <$> m) = Some (g <$> m).
Proof.
  intros Hf. unfold allSome. rewrite decide_True.
  - f_equal. apply map_eq. intros k.
    rewrite lookup_omap, !lookup_fmap.
    destruct (m !! k) as [x|] eqn:Hk; simpl; [|done]. by rewrite (Hf k x Hk).
  - intros k o. rewrite lookup_fmap.
    destruct (m !! k) as [x|] eqn:Hk; simpl; [|done].
    intros [= <-]. rewrite (Hf k x Hk). by eexists.
Qed.

Lemma mapM_fmap_total {A B} (f : A → option B) (g : A → B) (xs : list A) :
  (∀ x, x ∈ xs → f x = Some (g x)) →
  mapM id (f <$> xs) = Some (g <$> xs).
Proof.
  intros Hf. apply mapM_Some. induction xs as [|x xs IH]; simpl; constructor.
  - simpl. apply Hf. by left.
  - apply IH. intros y Hy. apply Hf. by right.
Qed.

(** Converting back and converting again gives the same script value. *)
Lemma FromInterface_ToInterface (v : Value) :
  FromInterface (ToInterface v) = Some v.
Proof.
  remember (vsize v) as n eqn:Hn. revert v Hn.
  induction (lt_wf n) as [n _ IH]. intros v ->.
  destruct v; try reflexivity.
  - (* VArray *)
    simpl. rewrite <- list_fmap_compose.
    rewrite (mapM_fmap_total _ id).
    + by rewrite list_fmap_id.
    + intros x Hx. simpl. exact (IH _ (vsize_elem xs x Hx) x eq_refl).
  - (* VMap *)
    simpl. rewrite <- map_fmap_compose.
    rewrite (allSome_fmap _ id).
    + by rewrite map_fmap_id.
    + intros k x Hk. simpl. exact (IH _ (vsize_lookup m k x Hk) x eq_refl).
  - (* VError *)
    destruct v; reflexivity.
Qed.

(** A host value already in the form the reverse direction produces comes
    back as it went in. *)
Lemma canonical_round_trip (h : HostValue) :
  canonical h = true →
  ∃ v, FromInterface h = Some v ∧ ToInterface v = h.
Proof.
  remember (hsize h) as n eqn:Hn. revert h Hn.
  induction (lt_wf n) as [n _ IH]. intros h ->.
  destruct h; simpl; try discriminate; intros Hc; try (eexists; split; reflexivity).
  - (* HMap *)
    apply bool_decide_eq_true_1 in Hc.
    assert (Hel : ∀ k x, m !! k = Some x →
                  FromInterface x = Some (default VUndefined (FromInterface x))
                  ∧ ToInterface (default VUndefined (FromInterface x)) = x).
    { intros k x Hk.
      destruct (IH (hsize x) (hsize_lookup m k x Hk) x eq_refl) as (v & Hv & Hb).
      - apply (Hc k). by rewrite lookup_fmap, Hk.
      - by rewrite Hv. }
    exists (VMap ((λ x, default VUndefined (FromInterface x)) <$> m)). split.
    + rewrite (allSome_fmap _ (λ x, default VUndefined (FromInterface x))); [done|].
      intros k x Hk. by apply (Hel k).
    + simpl. f_equal. rewrite <- map_fmap_compose. apply map_eq. intros k.
      rewrite lookup_fmap. destruct (m !! k) as [x|] eqn:Hk; simpl; [|done].
      f_equal. by apply (Hel k).
  - (* HSlice *)
    assert (Hel : ∀ x, x ∈ xs →
                  FromInterface x = Some (default VUndefined (FromInterface x))
                  ∧ ToInterface (default VUndefined (FromInterface x)) = x).
    { intros x Hx.
      destruct (IH (hsize x) (hsize_elem xs x Hx) x eq_refl) as (v & Hv & Hb).
      - rewrite forallb_forall in Hc. apply Hc. by apply list_elem_of_In.
      - by rewrite Hv. }
    exists (VArray ((λ x, default VUndefined (FromInterface x)) <$> xs)). split.
    + rewrite (mapM_fmap_total _ (λ x, default VUndefined (FromInterface x))); [done|].
      intros x Hx. by apply Hel.
    + simpl. f_equal. rewrite <- list_fmap_compose.
      rewrite <- (list_fmap_id xs) at 2. apply Forall_fmap_ext_1.
      apply Forall_forall. intros x Hx. by apply Hel.
Qed.


